(** * LFU cache (src/LFUCache.cpp): heap-level model and verification

    The C++ class [LFUCache] keeps two hash maps, [nodeMap] (key to node
    pointer) and [listMap] (frequency to list pointer).  Each [List] is a
    doubly linked list of [Node]s between two sentinel nodes.  Nodes are
    shared: the very same node object is referenced from [nodeMap] and
    from the links of its list.  The model therefore keeps an explicit
    store of node objects and of list objects, addressed by pointers, and
    every function of the source is a computation over that store.

    C++ [int] values are modelled by [Z].  Signed overflow is undefined in
    C++; the development covers the executions in which no counter leaves
    the [int] range.  Dereferencing a null or dangling pointer is
    undefined behaviour: the computation then has no result ([None]).
    The source never frees a node or a list, so allocation is modelled by
    a pointer [brk] that only moves forward.

    The file has four parts: the program (the store, the functions of the
    source, sequences of calls); the vocabulary of the proofs (views of
    the store, the shape of a list, the invariant of the cache); the
    proofs, up to the fact that every reachable state satisfies the
    invariant; and the properties C1 to C10 of the specification. *)

From stdpp Require Import gmap list sorting.
From Stdlib Require Import ZArith Lia.

Local Open Scope Z_scope.

(** * The program *)

(** ** Store *)

Abbreviation ptr := nat.
Definition NULL : ptr := 0%nat.

(** [struct Node]. *)
Record Node := mkNode {
  key : Z;
  val : Z;
  count : Z;
  next : ptr;
  prev : ptr
}.

(** [struct List]: the two sentinels and the element counter. *)
Record List := mkList {
  head : ptr;
  tail : ptr;
  size : Z
}.

(** The store ([nodes], [lists], allocation pointer [brk]) followed by the
    five data members of [class LFUCache]. *)
Record state := mkState {
  nodes : gmap nat Node;
  lists : gmap nat List;
  brk : nat;
  minf : Z;
  curSize : Z;
  maxSize : Z;
  nodeMap : gmap Z nat;
  listMap : gmap Z nat
}.

Definition set_nodes (f : gmap nat Node → gmap nat Node) (s : state) : state :=
  mkState (f (nodes s)) (lists s) (brk s) (minf s) (curSize s) (maxSize s)
          (nodeMap s) (listMap s).
Definition set_lists (f : gmap nat List → gmap nat List) (s : state) : state :=
  mkState (nodes s) (f (lists s)) (brk s) (minf s) (curSize s) (maxSize s)
          (nodeMap s) (listMap s).
Definition set_brk (b : nat) (s : state) : state :=
  mkState (nodes s) (lists s) b (minf s) (curSize s) (maxSize s)
          (nodeMap s) (listMap s).
Definition set_minf (z : Z) (s : state) : state :=
  mkState (nodes s) (lists s) (brk s) z (curSize s) (maxSize s)
          (nodeMap s) (listMap s).
Definition set_curSize (z : Z) (s : state) : state :=
  mkState (nodes s) (lists s) (brk s) (minf s) z (maxSize s)
          (nodeMap s) (listMap s).
Definition set_nodeMap (f : gmap Z nat → gmap Z nat) (s : state) : state :=
  mkState (nodes s) (lists s) (brk s) (minf s) (curSize s) (maxSize s)
          (f (nodeMap s)) (listMap s).
Definition set_listMap (f : gmap Z nat → gmap Z nat) (s : state) : state :=
  mkState (nodes s) (lists s) (brk s) (minf s) (curSize s) (maxSize s)
          (nodeMap s) (f (listMap s)).

Definition with_val (v : Z) (n : Node) : Node :=
  mkNode (key n) v (count n) (next n) (prev n).
Definition with_count (c : Z) (n : Node) : Node :=
  mkNode (key n) (val n) c (next n) (prev n).
Definition with_next (p : ptr) (n : Node) : Node :=
  mkNode (key n) (val n) (count n) p (prev n).
Definition with_prev (p : ptr) (n : Node) : Node :=
  mkNode (key n) (val n) (count n) (next n) p.
Definition with_size (z : Z) (l : List) : List :=
  mkList (head l) (tail l) z.

(** ** Computations over the store *)

Definition M (A : Type) : Type := state → option (A * state).

Definition ret {A} (a : A) : M A := λ s, Some (a, s).
Definition bind {A B} (m : M A) (k : A → M B) : M B :=
  λ s, match m s with
       | Some (a, s') => k a s'
       | None => None
       end.

Notation "'let!' x ':=' m 'in' k" := (bind m (λ x, k))
  (at level 10, x name, m at level 100, k at level 200).
Notation "m ';;;' k" := (bind m (λ _, k))
  (at level 100, k at level 200, right associativity).

Definition gets {A} (f : state → A) : M A := λ s, Some (f s, s).
Definition modify (f : state → state) : M unit := λ s, Some (tt, f s).

(** [p->field] as an rvalue. *)
Definition rdNode (p : ptr) : M Node :=
  λ s, if decide (p = NULL) then None
       else match nodes s !! p with
            | Some n => Some (n, s)
            | None => None
            end.
(** [p->field = ...]. *)
Definition wrNode (p : ptr) (f : Node → Node) : M unit :=
  λ s, if decide (p = NULL) then None
       else match nodes s !! p with
            | Some n => Some (tt, set_nodes (insert p (f n)) s)
            | None => None
            end.
Definition rdList (p : ptr) : M List :=
  λ s, if decide (p = NULL) then None
       else match lists s !! p with
            | Some l => Some (l, s)
            | None => None
            end.
Definition wrList (p : ptr) (f : List → List) : M unit :=
  λ s, if decide (p = NULL) then None
       else match lists s !! p with
            | Some l => Some (tt, set_lists (insert p (f l)) s)
            | None => None
            end.

(** [new Node(key, val)]: a fresh object with [count = 1] and null links. *)
Definition new_Node (k v : Z) : M ptr :=
  λ s, let p := brk s in
       Some (p, set_brk (S p) (set_nodes (insert p (mkNode k v 1 NULL NULL)) s)).

(** [new List()]: two sentinels linked to each other, [size = 0]. *)
Definition new_List : M ptr :=
  let! h := new_Node (-1) (-1) in
  let! t := new_Node (-1) (-1) in
  wrNode h (with_next t) ;;;
  wrNode t (with_prev h) ;;;
  λ s, let p := brk s in
       Some (p, set_brk (S p) (set_lists (insert p (mkList h t 0)) s)).

(** [List::addNode]. *)
Definition addNode (l : ptr) (add : ptr) : M unit :=
  let! L := rdList l in
  let! H := rdNode (head L) in
  let headRight := next H in
  wrNode add (with_prev (head L)) ;;;
  wrNode add (with_next headRight) ;;;
  wrNode (head L) (with_next add) ;;;
  wrNode headRight (with_prev add) ;;;
  wrList l (λ L, with_size (size L + 1) L).

(** [List::delNode]. *)
Definition delNode (l : ptr) (del : ptr) : M unit :=
  let! D := rdNode del in
  let left := prev D in
  let right := next D in
  wrNode left (with_next right) ;;;
  wrNode right (with_prev left) ;;;
  wrList l (λ L, with_size (size L - 1) L).

(** [listMap[f]] as an rvalue: [operator[]] of [unordered_map] inserts a
    value-initialised (null) pointer when the key is absent. *)
Definition listMap_at (f : Z) : M ptr :=
  λ s, match listMap s !! f with
       | Some p => Some (p, s)
       | None => Some (NULL, set_listMap (insert f NULL) s)
       end.
Definition nodeMap_at (k : Z) : M ptr :=
  λ s, match nodeMap s !! k with
       | Some p => Some (p, s)
       | None => Some (NULL, set_nodeMap (insert k NULL) s)
       end.

(** [LFUCache::updateFreqList].  Every [node->count] of the source is a
    read of the store. *)
Definition updateFreqList (node : ptr) : M unit :=
  let! N := rdNode node in
  let! list := listMap_at (count N) in
  delNode list node ;;;
  let! N1 := rdNode node in
  let! mf := gets minf in
  (if decide (count N1 = mf) then
     let! L := rdList list in
     if decide (size L = 0) then modify (set_minf (mf + 1)) else ret tt
   else ret tt) ;;;
  let! N2 := rdNode node in
  let! found := gets (λ s, listMap s !! (count N2 + 1)) in
  let! hl := match found with
             | Some _ =>
                 let! N3 := rdNode node in
                 let! higherList := listMap_at (count N3 + 1) in
                 ret (higherList, false)
             | None =>
                 let! higherList := new_List in
                 ret (higherList, true)
             end in
  let '(higherList, newList) := hl in
  wrNode node (λ n, with_count (count n + 1) n) ;;;
  addNode higherList node ;;;
  if newList then
    let! N' := rdNode node in
    modify (set_listMap (insert (count N') higherList))
  else ret tt.

(** [LFUCache::LFUCache].  Address [0] is the null pointer, so allocation
    starts at [1]. *)
Definition LFUCache (capacity : Z) : state :=
  mkState ∅ ∅ 1%nat 0 0 capacity ∅ ∅.

(** [LFUCache::get]. *)
Definition get (k : Z) : M Z :=
  let! found := gets (λ s, nodeMap s !! k) in
  match found with
  | Some _ =>
      let! resnode := nodeMap_at k in
      let! R := rdNode resnode in
      let res := val R in
      updateFreqList resnode ;;;
      ret res
  | None => ret (-1)
  end.

(** [LFUCache::put]. *)
Definition put (k value : Z) : M unit :=
  let! cap := gets maxSize in
  if decide (cap = 0) then ret tt else
  let! found := gets (λ s, nodeMap s !! k) in
  match found with
  | Some _ =>
      let! node := nodeMap_at k in
      wrNode node (with_val value) ;;;
      updateFreqList node
  | None =>
      let! cur := gets curSize in
      (if decide (cur = cap) then
         let! mf := gets minf in
         let! delList := listMap_at mf in
         let! DL := rdList delList in
         let! T := rdNode (tail DL) in
         let toBeDeleted := prev T in
         let! TBD := rdNode toBeDeleted in
         modify (set_nodeMap (delete (key TBD))) ;;;
         let! DL' := rdList delList in
         let! T' := rdNode (tail DL') in
         delNode delList (prev T') ;;;
         modify (λ s, set_curSize (curSize s - 1) s)
       else ret tt) ;;;
      modify (set_minf 1) ;;;
      let! toBeAdded := new_Node k value in
      let! mf1 := gets minf in
      let! found1 := gets (λ s, listMap s !! mf1) in
      let! minList := match found1 with
                      | Some _ => listMap_at mf1
                      | None => new_List
                      end in
      addNode minList toBeAdded ;;;
      modify (λ s, set_curSize (curSize s + 1) s) ;;;
      modify (set_nodeMap (insert k toBeAdded)) ;;;
      let! mf2 := gets minf in
      modify (set_listMap (insert mf2 minList))
  end.

(** ** Operation sequences *)

Inductive op := Get (k : Z) | Put (k v : Z).

(** Result of one call: [get] returns an [int], [put] returns nothing. *)
Definition exec (o : op) : M (option Z) :=
  match o with
  | Get k => let! r := get k in ret (Some r)
  | Put k v => put k v ;;; ret None
  end.

Fixpoint run (os : list op) (s : state) : option (list (option Z) * state) :=
  match os with
  | [] => Some ([], s)
  | o :: os' =>
      match exec o s with
      | Some (r, s') =>
          match run os' s' with
          | Some (rs, s'') => Some (r :: rs, s'')
          | None => None
          end
      | None => None
      end
  end.

Definition results (cap : Z) (os : list op) : option (list (option Z)) :=
  fst <$> run os (LFUCache cap).

(** * Vocabulary of the proofs *)

(** ** Views of the node store *)

(** The forward link, the backward link and the payload of the object at
    an address.  List shape depends on the first two only, the cache
    contents on the third only. *)
Definition nxt (nd : gmap nat Node) (p : ptr) : option ptr := next <$> nd !! p.
Definition prv (nd : gmap nat Node) (p : ptr) : option ptr := prev <$> nd !! p.
Definition dat (nd : gmap nat Node) (p : ptr) : option (Z * Z * Z) :=
  (λ n, (key n, val n, count n)) <$> nd !! p.
Definition kof (nd : gmap nat Node) (p : ptr) : Z :=
  match nd !! p with Some n => key n | None => 0 end.

(** [chain nd h ns t]: following [next] from [h] visits exactly [ns] and
    then [t], and the [prev] links mirror that path. *)
Fixpoint chain (nd : gmap nat Node) (h : ptr) (ns : list ptr) (t : ptr) : Prop :=
  match ns with
  | [] => nxt nd h = Some t ∧ prv nd t = Some h
  | n :: ns' => nxt nd h = Some n ∧ prv nd n = Some h ∧ chain nd n ns' t
  end.

(** The nodes a list occupies: both sentinels and the elements [ns]. *)
Definition cells (L : List) (ns : list ptr) : list ptr :=
  head L :: ns ++ [tail L].

(** The list object at [la] holds exactly the nodes [ns], front first. *)
Record bucket_at (nd : gmap nat Node) (ls : gmap nat List)
    (la : ptr) (ns : list ptr) (L : List) : Prop := {
  ba_list : ls !! la = Some L;
  ba_size : size L = Z.of_nat (length ns);
  ba_chain : chain nd (head L) ns (tail L);
  ba_nodup : NoDup (cells L ns)
}.

(** Every list registered in [lm] is a well-formed bucket with contents
    [bk f], and distinct buckets share no node. *)
Record Buckets (nd : gmap nat Node) (ls : gmap nat List)
    (lm : gmap Z nat) (bk : Z → list ptr) : Prop := {
  B_null : nd !! NULL = None;
  B_lnull : ls !! NULL = None;
  B_at : ∀ f la, lm !! f = Some la → ∃ L, bucket_at nd ls la (bk f) L;
  B_sep : ∀ f f' la la' L L' x,
      f ≠ f' → lm !! f = Some la → lm !! f' = Some la' →
      ls !! la = Some L → ls !! la' = Some L' →
      x ∈ cells L (bk f) → x ∈ cells L' (bk f') → False;
  B_none : ∀ f, lm !! f = None → bk f = []
}.

(** The contents [bk], those of frequency [f] replaced by [ns]. *)
Definition upd (bk : Z → list ptr) (f : Z) (ns : list ptr) : Z → list ptr :=
  λ x, if decide (x = f) then ns else bk x.

(** ** Store bookkeeping *)

(** The store of [s] replaced, the data members of the cache kept. *)
Definition with_store (nd : gmap nat Node) (ls : gmap nat List) (b : nat)
    (s : state) : state :=
  mkState nd ls b (minf s) (curSize s) (maxSize s) (nodeMap s) (listMap s).

(** Allocated addresses lie strictly between [NULL] and [brk]. *)
Definition heap_ok (nd : gmap nat Node) (ls : gmap nat List) (b : nat) : Prop :=
  (∀ p, is_Some (nd !! p) → (0 < p < b)%nat) ∧
  (∀ p, is_Some (ls !! p) → (0 < p < b)%nat) ∧ (0 < b)%nat.

(** ** Histories and the cache invariant *)

(** The key a call is made on. *)
Definition okey (o : op) : Z :=
  match o with Get k => k | Put k _ => k end.

(** A history lists the calls made so far, most recent first.  [age h k]
    is the number of calls made after the last call on key [k]. *)
Fixpoint age (h : list op) (k : Z) : nat :=
  match h with
  | [] => 0
  | o :: h' => if decide (okey o = k) then 0%nat else S (age h' k)
  end.

(** States reached from a freshly constructed cache. *)
Inductive reach (cap : Z) : list op → state → Prop :=
  | reach_init : reach cap [] (LFUCache cap)
  | reach_step h s o r s' :
      reach cap h s → exec o s = Some (r, s') → reach cap (o :: h) s'.

(** The [n] nodes found by following [next] from [p]. *)
Fixpoint walk (nd : gmap nat Node) (p : ptr) (n : nat) : list ptr :=
  match n with
  | O => []
  | S n' => match nxt nd p with
            | Some q => q :: walk nd q n'
            | None => []
            end
  end.

(** The nodes of the list of frequency [f], read off the store by following
    [next] from the head sentinel, [size] times. *)
Definition bucket (s : state) (f : Z) : list ptr :=
  match listMap s !! f with
  | Some la =>
      match lists s !! la with
      | Some L => walk (nodes s) (head L) (Z.to_nat (size L))
      | None => []
      end
  | None => []
  end.

(** [x] was touched more recently than [y]. *)
Definition newer (h : list op) (nd : gmap nat Node) (x y : ptr) : Prop :=
  (age h (kof nd x) < age h (kof nd y))%nat.

(** The invariant of the cache after the calls [h], with [bk f] the
    contents of the bucket of frequency [f]: the store is well allocated;
    the registered lists are well-formed and disjoint; the nodes in the
    buckets are exactly the nodes [nodeMap] points to, each in the bucket
    of its [count] and under its own [key]; [curSize] counts the keys;
    [minf] is the least frequency with a non-empty bucket when there is
    one; frequencies are at least 1; the capacity, if not negative,
    bounds [curSize]; each bucket is in order of recency, newest first. *)
Record Inv (h : list op) (s : state) (bk : Z → list ptr) : Prop := {
  I_heap : heap_ok (nodes s) (lists s) (brk s);
  I_bk : Buckets (nodes s) (lists s) (listMap s) bk;
  I_data : ∀ f a, a ∈ bk f →
      ∃ k v, dat (nodes s) a = Some (k, v, f) ∧ nodeMap s !! k = Some a;
  I_nm : ∀ k a, nodeMap s !! k = Some a →
      ∃ v c, dat (nodes s) a = Some (k, v, c) ∧ a ∈ bk c;
  I_size : curSize s = Z.of_nat (base.size (nodeMap s));
  I_min : 0 < curSize s →
      bk (minf s) ≠ [] ∧ ∀ f, bk f ≠ [] → minf s ≤ f;
  I_pos : ∀ f, bk f ≠ [] → 1 ≤ f;
  I_cap : 0 ≤ maxSize s → curSize s ≤ maxSize s;
  I_age : ∀ f, StronglySorted (newer h (nodes s)) (bk f)
}.

(** ** The key-absent path of [put] *)

(** What still holds between the eviction and the insertion of [put]:
    everything but the position of [minf] and the capacity bound. *)
Record Pre (h : list op) (s : state) (bk : Z → list ptr) : Prop := {
  P_heap : heap_ok (nodes s) (lists s) (brk s);
  P_bk : Buckets (nodes s) (lists s) (listMap s) bk;
  P_data : ∀ f a, a ∈ bk f →
      ∃ k v, dat (nodes s) a = Some (k, v, f) ∧ nodeMap s !! k = Some a;
  P_nm : ∀ k a, nodeMap s !! k = Some a →
      ∃ v c, dat (nodes s) a = Some (k, v, c) ∧ a ∈ bk c;
  P_size : curSize s = Z.of_nat (base.size (nodeMap s));
  P_pos : ∀ f, bk f ≠ [] → 1 ≤ f;
  P_age : ∀ f, StronglySorted (newer h (nodes s)) (bk f)
}.

(** The two halves of the key-absent path of [put], named for the proofs. *)
Definition evict_block : M unit :=
  let! mf := gets minf in
  let! delList := listMap_at mf in
  let! DL := rdList delList in
  let! T := rdNode (tail DL) in
  let toBeDeleted := prev T in
  let! TBD := rdNode toBeDeleted in
  modify (set_nodeMap (delete (key TBD))) ;;;
  let! DL' := rdList delList in
  let! T' := rdNode (tail DL') in
  delNode delList (prev T') ;;;
  modify (λ s, set_curSize (curSize s - 1) s).

Definition insert_block (k value : Z) : M unit :=
  modify (set_minf 1) ;;;
  let! toBeAdded := new_Node k value in
  let! mf1 := gets minf in
  let! found1 := gets (λ s, listMap s !! mf1) in
  let! minList := match found1 with
                  | Some _ => listMap_at mf1
                  | None => new_List
                  end in
  addNode minList toBeAdded ;;;
  modify (λ s, set_curSize (curSize s + 1) s) ;;;
  modify (set_nodeMap (insert k toBeAdded)) ;;;
  let! mf2 := gets minf in
  modify (set_listMap (insert mf2 minList)).

(** ** What one call does to the contents *)

(** The value held after a hit, and the value returned by the call. *)
Definition oval (o : op) (v : Z) : Z :=
  match o with Get _ => v | Put _ v' => v' end.
Definition ores (o : op) (v : Z) : option Z :=
  match o with Get _ => Some v | Put _ _ => None end.

(** The four things a call can do: nothing (a [get] miss, or a [put] on a
    cache of capacity 0); promote the entry of its key; insert its key in
    free room; insert its key after evicting entry [kv]. *)
Inductive effect (s : state) (o : op) (r : option Z) (s' : state) : Prop :=
  | eff_noop :
      s' = s → nodeMap s !! okey o = None → r = ores o (-1) →
      (∀ k v, o = Put k v → maxSize s = 0) →
      effect s o r s'
  | eff_hit a v c :
      nodeMap s !! okey o = Some a →
      dat (nodes s) a = Some (okey o, v, c) →
      nodeMap s' = nodeMap s → curSize s' = curSize s →
      dat (nodes s') a = Some (okey o, oval o v, c + 1) →
      (∀ x, x ≠ a → is_Some (nodes s !! x) → dat (nodes s') x = dat (nodes s) x) →
      r = ores o v →
      effect s o r s'
  | eff_fresh k v :
      o = Put k v → maxSize s ≠ 0 → nodeMap s !! k = None →
      curSize s ≠ maxSize s →
      nodeMap s' = <[k := brk s]> (nodeMap s) → curSize s' = curSize s + 1 →
      dat (nodes s') (brk s) = Some (k, v, 1) →
      (∀ x, is_Some (nodes s !! x) → dat (nodes s') x = dat (nodes s) x) →
      r = None →
      effect s o r s'
  | eff_evict k v kv av vv :
      o = Put k v → maxSize s ≠ 0 → nodeMap s !! k = None →
      curSize s = maxSize s →
      nodeMap s !! kv = Some av → dat (nodes s) av = Some (kv, vv, minf s) →
      nodeMap s' = <[k := brk s]> (delete kv (nodeMap s)) → curSize s' = curSize s →
      dat (nodes s') (brk s) = Some (k, v, 1) →
      (∀ x, is_Some (nodes s !! x) → dat (nodes s') x = dat (nodes s) x) →
      r = None →
      effect s o r s'.

(** The state reached by a sequence of calls on a new cache. *)
Definition after (cap : Z) (ops : list op) : state :=
  match run ops (LFUCache cap) with
  | Some (_, s) => s
  | None => LFUCache cap
  end.

(** ** Frame properties *)

(** [keeps R m]: whenever the computation [m] returns, the states before
    and after are related by [R]. *)
Definition keeps (R : state → state → Prop) {A} (m : M A) : Prop :=
  ∀ s a s', m s = Some (a, s') → R s s'.

(** A relation that no store update, no change of [minf] and no
    registration of a list can break. *)
Class FrameRel (R : state → state → Prop) : Prop := {
  fr_refl : ∀ s, R s s;
  fr_trans : ∀ s1 s2 s3, R s1 s2 → R s2 s3 → R s1 s3;
  fr_nodes : ∀ f s, R s (set_nodes f s);
  fr_lists : ∀ f s, R s (set_lists f s);
  fr_brk : ∀ b s, R s (set_brk b s);
  fr_minf : ∀ z s, R s (set_minf z s);
  fr_listMap : ∀ f p s, R s (set_listMap (insert f p) s)
}.

(** No code path erases from [listMap]: a frequency that has a list keeps
    one. *)
Definition grows (s s' : state) : Prop :=
  ∀ f, is_Some (listMap s !! f) → is_Some (listMap s' !! f).

(** The key index and the entry counter are the same. *)
Definition same_index (s s' : state) : Prop :=
  nodeMap s' = nodeMap s ∧ curSize s' = curSize s.

(** ** Observations on the contents *)

(** [nodeMap] binds [k] to a node that carries value [v]. *)
Definition stored (s : state) (k v : Z) : Prop :=
  ∃ a c, nodeMap s !! k = Some a ∧ dat (nodes s) a = Some (k, v, c).

(** The frequency field of the entry of key [k], if there is one. *)
Definition freq (s : state) (k : Z) : option Z :=
  match nodeMap s !! k with
  | Some a => count <$> nodes s !! a
  | None => None
  end.

(** ** A concrete state *)

(** A cache of capacity 2 after [put(1,10); put(2,20); get(1)]: full, key
    1 at frequency 2, key 2 at frequency 1. *)
Definition demo_ops : list op := [Put 1 10; Put 2 20; Get 1].
Definition demo : state := after 2 demo_ops.

(** * Proofs *)

(** ** Scenarios *)

(** The scenarios of the specification's section 8, run on the model. *)
Example recency_tie :
  results 2 [Put 1 10; Put 2 20; Get 1; Put 3 30; Get 2; Get 1; Get 3]
  = Some [None; None; Some 10; None; Some (-1); Some 10; Some 30].
Proof. vm_compute. reflexivity. Qed.

Example frequency_priority :
  results 2 [Put 1 10; Put 2 20; Get 1; Get 1; Put 3 30; Get 2; Get 1; Get 3]
  = Some [None; None; Some 10; Some 10; None; Some (-1); Some 10; Some 30].
Proof. vm_compute. reflexivity. Qed.

Example update_in_place :
  results 2 [Put 1 10; Put 1 11; Get 1] = Some [None; None; Some 11]
  ∧ curSize (after 2 [Put 1 10; Put 1 11; Get 1]) = 1.
Proof. split; vm_compute; reflexivity. Qed.

Example miss_on_empty :
  get 5 (LFUCache 2) = Some (-1, LFUCache 2).
Proof. reflexivity. Qed.

(** ** Views and chains *)

Section views.
Implicit Types (nd : gmap nat Node) (p q x : ptr) (N : Node).

Lemma nxt_with_next nd p q N x :
  nxt (<[p := with_next q N]> nd) x = if decide (p = x) then Some q else nxt nd x.
Proof. unfold nxt. rewrite lookup_insert. by case_decide. Qed.

Lemma prv_with_prev nd p q N x :
  prv (<[p := with_prev q N]> nd) x = if decide (p = x) then Some q else prv nd x.
Proof. unfold prv. rewrite lookup_insert. by case_decide. Qed.

Lemma nxt_with_prev nd p q N x :
  nd !! p = Some N → nxt (<[p := with_prev q N]> nd) x = nxt nd x.
Proof.
  intros H. unfold nxt. rewrite lookup_insert.
  case_decide; [subst; by rewrite H | done].
Qed.

Lemma prv_with_next nd p q N x :
  nd !! p = Some N → prv (<[p := with_next q N]> nd) x = prv nd x.
Proof.
  intros H. unfold prv. rewrite lookup_insert.
  case_decide; [subst; by rewrite H | done].
Qed.

Lemma dat_with_next nd p q N x :
  nd !! p = Some N → dat (<[p := with_next q N]> nd) x = dat nd x.
Proof.
  intros H. unfold dat. rewrite lookup_insert.
  case_decide; [subst; by rewrite H | done].
Qed.

Lemma dat_with_prev nd p q N x :
  nd !! p = Some N → dat (<[p := with_prev q N]> nd) x = dat nd x.
Proof.
  intros H. unfold dat. rewrite lookup_insert.
  case_decide; [subst; by rewrite H | done].
Qed.

Lemma nxt_is_Some nd p q : nxt nd p = Some q → is_Some (nd !! p).
Proof. unfold nxt. destruct (nd !! p); [eauto | done]. Qed.

Lemma prv_is_Some nd p q : prv nd p = Some q → is_Some (nd !! p).
Proof. unfold prv. destruct (nd !! p); [eauto | done]. Qed.

Lemma dat_kof nd nd' p : dat nd' p = dat nd p → kof nd' p = kof nd p.
Proof.
  unfold dat, kof. destruct (nd' !! p), (nd !! p); simpl; congruence.
Qed.
End views.

Section chains.
Implicit Types (nd : gmap nat Node) (h t a x : ptr) (ns : list ptr).

Lemma chain_ext nd nd' ns : ∀ h t,
  chain nd h ns t →
  (∀ x, x ∈ h :: ns → nxt nd' x = nxt nd x) →
  (∀ x, x ∈ ns ++ [t] → prv nd' x = prv nd x) →
  chain nd' h ns t.
Proof.
  induction ns as [|n ns IH]; simpl; intros h t Hc Hn Hp.
  - destruct Hc as [H1 H2]. split.
    + rewrite Hn; [done | set_solver].
    + rewrite Hp; [done | set_solver].
  - destruct Hc as (H1 & H2 & H3). split_and!.
    + rewrite Hn; [done | set_solver].
    + rewrite Hp; [done | set_solver].
    + apply IH; [done | |]; intros x Hx; [apply Hn | apply Hp]; set_solver.
Qed.

Lemma chain_alloc nd ns : ∀ h t x,
  chain nd h ns t → x ∈ h :: ns ++ [t] → is_Some (nd !! x).
Proof.
  induction ns as [|n ns IH]; simpl; intros h t x Hc Hx.
  - destruct Hc as [H1 H2].
    apply elem_of_cons in Hx as [->|Hx]; [by eapply nxt_is_Some |].
    apply list_elem_of_singleton in Hx as ->. by eapply prv_is_Some.
  - destruct Hc as (H1 & H2 & H3).
    apply elem_of_cons in Hx as [->|Hx]; [by eapply nxt_is_Some |].
    by eapply IH.
Qed.

(** The backward link of the tail sentinel designates the last element,
    or the head sentinel when the list is empty. *)
Lemma chain_last nd ns : ∀ h t,
  chain nd h ns t → prv nd t = Some (default h (last ns)).
Proof.
  induction ns as [|n ns IH]; simpl; intros h t Hc.
  - by destruct Hc.
  - destruct Hc as (_ & _ & H3). apply IH in H3.
    rewrite H3, last_cons. by destruct (last ns).
Qed.

Lemma chain_first nd ns h t :
  chain nd h ns t → nxt nd h = Some (default t (list.head ns)).
Proof. destruct ns; simpl; tauto. Qed.

(** Links around an inner element. *)
Lemma chain_mid nd l1 : ∀ h a l2 t,
  chain nd h (l1 ++ a :: l2) t →
  prv nd a = Some (default h (last l1)) ∧
  nxt nd a = Some (default t (list.head l2)).
Proof.
  induction l1 as [|n l1 IH]; simpl; intros h a l2 t Hc.
  - destruct Hc as (_ & H2 & H3). split; [done |]. by eapply chain_first.
  - destruct Hc as (_ & _ & H3). apply IH in H3 as [H3 H4].
    split; [| done]. rewrite H3, last_cons. by destruct (last l1).
Qed.

(** Unlinking an inner element: the effect of [delNode] on the shape. *)
Lemma chain_unlink nd nd' l1 : ∀ h a l2 t,
  chain nd h (l1 ++ a :: l2) t →
  NoDup (h :: (l1 ++ a :: l2) ++ [t]) →
  let left := default h (last l1) in
  let right := default t (list.head l2) in
  nxt nd' left = Some right →
  prv nd' right = Some left →
  (∀ x, x ≠ left → nxt nd' x = nxt nd x) →
  (∀ x, x ≠ right → prv nd' x = prv nd x) →
  chain nd' h (l1 ++ l2) t.
Proof.
  induction l1 as [|n l1 IH]; simpl; intros h a l2 t Hc Hnd Hl Hr Hn Hp.
  - destruct Hc as (H1 & H2 & H3).
    apply NoDup_cons in Hnd as [Hh Hnd].
    apply NoDup_cons in Hnd as [Ha Hnd].
    destruct l2 as [|r l2]; simpl in *; [done |].
    destruct H3 as (H3 & H4 & H5). split_and!; [done.. |].
    apply NoDup_cons in Hnd as [Hr' Hnd].
    eapply chain_ext; [done | |].
    + intros x Hx. apply Hn. intros ->. set_solver.
    + intros x Hx. apply Hp. intros ->. set_solver.
  - destruct Hc as (H1 & H2 & H3).
    apply NoDup_cons in Hnd as [Hh Hnd].
    assert (default n (last l1) ∈ n :: l1) as Hin.
    { destruct (last l1) as [y|] eqn:E; simpl; [| set_solver].
      apply last_Some_elem_of in E. set_solver. }
    assert (default t (list.head l2) ∈ l2 ++ [t]) as Hin2.
    { destruct l2; simpl; set_solver. }
    assert (default h (last (n :: l1)) = default n (last l1)) as El.
    { rewrite last_cons. by destruct (last l1). }
    rewrite El in Hl, Hr, Hn. split_and!.
    + rewrite Hn; [done |]. intros ->. set_solver.
    + rewrite Hp; [done |]. intros ->.
      apply NoDup_cons in Hnd as [Hn' _]. set_solver.
    + by apply (IH n a l2 t).
Qed.

(** Linking a new element behind the head sentinel: the effect of
    [addNode] on the shape. *)
Lemma chain_link nd nd' ns h a t :
  chain nd h ns t →
  NoDup (h :: ns ++ [t]) → a ∉ h :: ns ++ [t] →
  let r := default t (list.head ns) in
  nxt nd' h = Some a → prv nd' a = Some h →
  nxt nd' a = Some r → prv nd' r = Some a →
  (∀ x, x ≠ h → x ≠ a → nxt nd' x = nxt nd x) →
  (∀ x, x ≠ a → x ≠ r → prv nd' x = prv nd x) →
  chain nd' h (a :: ns) t.
Proof.
  intros Hc Hnd Ha r H1 H2 H3 H4 Hn Hp. simpl. split_and!; [done.. |].
  apply NoDup_cons in Hnd as [Hh Hnd].
  destruct ns as [|n ns]; simpl in *; [done |].
  destruct Hc as (H5 & H6 & H7). split_and!; [done.. |].
  apply NoDup_cons in Hnd as [Hn' Hnd].
  eapply chain_ext; [done | |].
  - intros x Hx. apply Hn; intros ->; set_solver.
  - intros x Hx. apply Hp; intros ->; set_solver.
Qed.
End chains.

(** ** Running the primitives *)

Lemma bind_eq {A B} (m : M A) (k : A → M B) s a s' :
  m s = Some (a, s') → bind m k s = k a s'.
Proof. unfold bind. by intros ->. Qed.

Lemma rdNode_eq s p n :
  nodes s !! NULL = None → nodes s !! p = Some n → rdNode p s = Some (n, s).
Proof.
  intros H0 Hp. unfold rdNode. case_decide; [congruence |]. by rewrite Hp.
Qed.

Lemma wrNode_eq s p n f :
  nodes s !! NULL = None → nodes s !! p = Some n →
  wrNode p f s = Some (tt, set_nodes (insert p (f n)) s).
Proof.
  intros H0 Hp. unfold wrNode. case_decide; [congruence |]. by rewrite Hp.
Qed.

Lemma rdList_eq s p l :
  lists s !! NULL = None → lists s !! p = Some l → rdList p s = Some (l, s).
Proof.
  intros H0 Hp. unfold rdList. case_decide; [congruence |]. by rewrite Hp.
Qed.

Lemma wrList_eq s p l f :
  lists s !! NULL = None → lists s !! p = Some l →
  wrList p f s = Some (tt, set_lists (insert p (f l)) s).
Proof.
  intros H0 Hp. unfold wrList. case_decide; [congruence |]. by rewrite Hp.
Qed.

Lemma listMap_at_eq s f p :
  listMap s !! f = Some p → listMap_at f s = Some (p, s).
Proof. unfold listMap_at. by intros ->. Qed.

Lemma nodeMap_at_eq s k p :
  nodeMap s !! k = Some p → nodeMap_at k s = Some (p, s).
Proof. unfold nodeMap_at. by intros ->. Qed.

Ltac mstep E := erewrite bind_eq; [| apply E]; cbv beta.

Lemma insert_NULL_None {V} (m : gmap nat V) (p : nat) (v : V) :
  m !! NULL = None → p ≠ NULL → <[p := v]> m !! NULL = None.
Proof. intros H Hp. by rewrite lookup_insert_ne. Qed.

Lemma lookup_not_NULL {V} (m : gmap nat V) (p : nat) (v : V) :
  m !! NULL = None → m !! p = Some v → p ≠ NULL.
Proof. congruence. Qed.

Lemma delNode_spec s la a L l1 l2 :
  nodes s !! NULL = None → lists s !! NULL = None →
  bucket_at (nodes s) (lists s) la (l1 ++ a :: l2) L →
  ∃ nd',
    delNode la a s
    = Some (tt, with_store nd' (<[la := with_size (size L - 1) L]> (lists s))
                           (brk s) s)
    ∧ nd' !! NULL = None
    ∧ (∀ x, dat nd' x = dat (nodes s) x)
    ∧ chain nd' (head L) (l1 ++ l2) (tail L)
    ∧ (∀ x, x ∉ cells L (l1 ++ l2) → nd' !! x = nodes s !! x).
Proof.
  intros H0 HL0 [HL Hsz Hc Hnd].
  destruct (chain_mid _ _ _ _ _ _ Hc) as [Hp Hn].
  set (left := default (head L) (last l1)) in *.
  set (right := default (tail L) (list.head l2)) in *.
  assert (left ∈ head L :: l1) as Hleft.
  { subst left. destruct (last l1) as [y|] eqn:E; simpl; [| set_solver].
    apply last_Some_elem_of in E. set_solver. }
  assert (right ∈ l2 ++ [tail L]) as Hright.
  { subst right. destruct l2; simpl; set_solver. }
  assert (left ≠ right) as Hlr.
  { intros E. rewrite <- E in Hright. unfold cells in Hnd.
    rewrite <- app_assoc in Hnd. simpl in Hnd.
    change (head L :: l1 ++ a :: l2 ++ [tail L])
      with ((head L :: l1) ++ a :: l2 ++ [tail L]) in Hnd.
    apply NoDup_app in Hnd as (_ & Hd & _). apply (Hd left Hleft). set_solver. }
  destruct (nodes s !! a) as [D|] eqn:Ha; [| by unfold prv in Hp; rewrite Ha in Hp].
  assert (prev D = left) as HpD by (unfold prv in Hp; rewrite Ha in Hp; by injection Hp).
  assert (next D = right) as HnD by (unfold nxt in Hn; rewrite Ha in Hn; by injection Hn).
  destruct (chain_alloc _ _ _ _ left Hc) as [Lf HLf]; [set_solver |].
  destruct (chain_alloc _ _ _ _ right Hc) as [R HR]; [set_solver |].
  pose proof (lookup_not_NULL _ _ _ H0 HLf) as Hl0.
  pose proof (lookup_not_NULL _ _ _ H0 HR) as Hr0.
  set (nd1 := <[left := with_next right Lf]> (nodes s)).
  set (nd2 := <[right := with_prev left R]> nd1).
  assert (nd1 !! right = Some R) as HR1 by (subst nd1; by rewrite lookup_insert_ne).
  exists nd2. split_and!.
  - unfold delNode. mstep (rdNode_eq s a D H0 Ha). rewrite HpD, HnD.
    mstep (wrNode_eq s left Lf (with_next right) H0 HLf).
    erewrite bind_eq; [| apply wrNode_eq; simpl; [by apply insert_NULL_None | exact HR1]].
    cbv beta. erewrite wrList_eq; [reflexivity | done | exact HL].
  - subst nd2 nd1. by rewrite !lookup_insert_ne.
  - intros x. subst nd2. rewrite (dat_with_prev _ _ _ _ _ HR1).
    subst nd1. by rewrite (dat_with_next _ _ _ _ _ HLf).
  - eapply chain_unlink; [exact Hc | exact Hnd | ..]; fold left; fold right.
    + subst nd2. rewrite (nxt_with_prev _ _ _ _ _ HR1). subst nd1.
      rewrite nxt_with_next. by rewrite decide_True.
    + subst nd2. rewrite prv_with_prev. by rewrite decide_True.
    + intros x Hx. subst nd2. rewrite (nxt_with_prev _ _ _ _ _ HR1). subst nd1.
      rewrite nxt_with_next. by rewrite decide_False.
    + intros x Hx. subst nd2. rewrite prv_with_prev. rewrite decide_False by done.
      subst nd1. by rewrite (prv_with_next _ _ _ _ _ HLf).
  - intros x Hx. subst nd2 nd1. unfold cells in Hx.
    rewrite !lookup_insert_ne; [done | |]; intros <-; set_solver.
Qed.

Lemma addNode_spec s la a L ns A :
  nodes s !! NULL = None → lists s !! NULL = None →
  bucket_at (nodes s) (lists s) la ns L →
  nodes s !! a = Some A → a ∉ cells L ns →
  ∃ nd',
    addNode la a s
    = Some (tt, with_store nd' (<[la := with_size (size L + 1) L]> (lists s))
                           (brk s) s)
    ∧ nd' !! NULL = None
    ∧ (∀ x, dat nd' x = dat (nodes s) x)
    ∧ chain nd' (head L) (a :: ns) (tail L)
    ∧ (∀ x, x ∉ cells L (a :: ns) → nd' !! x = nodes s !! x).
Proof.
  intros H0 HL0 [HL Hsz Hc Hnd] Ha Hfresh.
  pose proof (chain_first _ _ _ _ Hc) as Hn.
  set (h := head L) in *. set (r := default (tail L) (list.head ns)) in *.
  assert (r ∈ ns ++ [tail L]) as Hr.
  { subst r. destruct ns; simpl; set_solver. }
  unfold cells in Hnd, Hfresh. fold h in Hnd, Hfresh.
  assert (h ≠ r) as Hhr.
  { apply NoDup_cons in Hnd as [Hh _]. intros E. by rewrite <- E in Hr. }
  assert (a ≠ h) as Hah by set_solver.
  assert (a ≠ r) as Har by (intros ->; set_solver).
  destruct (nodes s !! h) as [H|] eqn:Hh; [| by unfold nxt in Hn; rewrite Hh in Hn].
  assert (next H = r) as HnH by (unfold nxt in Hn; rewrite Hh in Hn; by injection Hn).
  destruct (chain_alloc _ _ _ _ r Hc) as [R HR]; [set_solver |].
  pose proof (lookup_not_NULL _ _ _ H0 Ha) as Ha0.
  pose proof (lookup_not_NULL _ _ _ H0 Hh) as Hh0.
  pose proof (lookup_not_NULL _ _ _ H0 HR) as Hr0.
  set (nd1 := <[a := with_prev h A]> (nodes s)).
  set (nd2 := <[a := with_next r (with_prev h A)]> nd1).
  set (nd3 := <[h := with_next a H]> nd2).
  set (nd4 := <[r := with_prev a R]> nd3).
  assert (nd1 !! a = Some (with_prev h A)) as E1 by (subst nd1; by rewrite lookup_insert_eq).
  assert (nd2 !! h = Some H) as E2 by (subst nd2 nd1; by rewrite !lookup_insert_ne).
  assert (nd3 !! r = Some R) as E3 by (subst nd3 nd2 nd1; by rewrite !lookup_insert_ne).
  assert (∀ x, nxt nd4 x = if decide (h = x) then Some a
                           else if decide (a = x) then Some r
                           else nxt (nodes s) x) as Hnx.
  { intros x. subst nd4. rewrite (nxt_with_prev _ _ _ _ _ E3). subst nd3.
    rewrite nxt_with_next. case_decide; [done |]. subst nd2.
    rewrite nxt_with_next. case_decide; [done |]. subst nd1.
    by rewrite (nxt_with_prev _ _ _ _ _ Ha). }
  assert (∀ x, prv nd4 x = if decide (r = x) then Some a
                           else if decide (a = x) then Some h
                           else prv (nodes s) x) as Hpx.
  { intros x. subst nd4. rewrite prv_with_prev. case_decide; [done |]. subst nd3.
    rewrite (prv_with_next _ _ _ _ _ E2). subst nd2.
    rewrite (prv_with_next _ _ _ _ _ E1). subst nd1.
    by rewrite prv_with_prev. }
  exists nd4. split_and!.
  - unfold addNode. mstep (rdList_eq s la L HL0 HL). fold h.
    mstep (rdNode_eq s h H H0 Hh). rewrite HnH.
    mstep (wrNode_eq s a A (with_prev h) H0 Ha).
    erewrite bind_eq;
      [| apply wrNode_eq; simpl; [by rewrite lookup_insert_ne | exact E1]].
    cbv beta.
    erewrite bind_eq;
      [| apply wrNode_eq; simpl; [by rewrite !lookup_insert_ne | exact E2]].
    cbv beta.
    erewrite bind_eq;
      [| apply wrNode_eq; simpl; [by rewrite !lookup_insert_ne | exact E3]].
    cbv beta. erewrite wrList_eq; [reflexivity | done | exact HL].
  - subst nd4 nd3 nd2 nd1. by rewrite !lookup_insert_ne.
  - intros x. subst nd4. rewrite (dat_with_prev _ _ _ _ _ E3). subst nd3.
    rewrite (dat_with_next _ _ _ _ _ E2). subst nd2.
    rewrite (dat_with_next _ _ _ _ _ E1). subst nd1.
    by rewrite (dat_with_prev _ _ _ _ _ Ha).
  - eapply chain_link; [exact Hc | exact Hnd | exact Hfresh | ..]; fold r.
    + rewrite Hnx. by rewrite decide_True.
    + rewrite Hpx. rewrite decide_False by done. by rewrite decide_True.
    + rewrite Hnx. rewrite decide_False by done. by rewrite decide_True.
    + rewrite Hpx. by rewrite decide_True.
    + intros x ? ?. rewrite Hnx. by rewrite !decide_False.
    + intros x ? ?. rewrite Hpx. by rewrite !decide_False.
  - intros x Hx. unfold cells in Hx. fold h in Hx.
    subst nd4 nd3 nd2 nd1.
    rewrite !lookup_insert_ne; [done | | | |]; intros <-; set_solver.
Qed.

Lemma heap_ok_null nd ls b : heap_ok nd ls b → nd !! NULL = None ∧ ls !! NULL = None.
Proof.
  intros (H1 & H2 & _). split.
  - destruct (nd !! NULL) eqn:E; [| done]. specialize (H1 NULL). rewrite E in H1.
    unfold NULL in H1. assert (0 < 0 < b)%nat by eauto. lia.
  - destruct (ls !! NULL) eqn:E; [| done]. specialize (H2 NULL). rewrite E in H2.
    unfold NULL in H2. assert (0 < 0 < b)%nat by eauto. lia.
Qed.

Lemma heap_ok_fresh nd ls b p :
  heap_ok nd ls b → (b ≤ p)%nat → nd !! p = None ∧ ls !! p = None.
Proof.
  intros (H1 & H2 & _) Hp. split.
  - destruct (nd !! p) eqn:E; [| done]. specialize (H1 p). rewrite E in H1.
    assert (0 < p < b)%nat by eauto. lia.
  - destruct (ls !! p) eqn:E; [| done]. specialize (H2 p). rewrite E in H2.
    assert (0 < p < b)%nat by eauto. lia.
Qed.

Lemma new_Node_spec s k v :
  new_Node k v s
  = Some (brk s, with_store (<[brk s := mkNode k v 1 NULL NULL]> (nodes s))
                            (lists s) (S (brk s)) s).
Proof. reflexivity. Qed.

Lemma new_List_spec s :
  heap_ok (nodes s) (lists s) (brk s) →
  let h := brk s in
  let t := S (brk s) in
  let l := S (S (brk s)) in
  ∃ nd',
    new_List s
    = Some (l, with_store nd' (<[l := mkList h t 0]> (lists s)) (S l) s)
    ∧ nd' !! h = Some (mkNode (-1) (-1) 1 t NULL)
    ∧ nd' !! t = Some (mkNode (-1) (-1) 1 NULL h)
    ∧ (∀ x, x ≠ h → x ≠ t → nd' !! x = nodes s !! x).
Proof.
  intros Hok h t l. destruct (heap_ok_null _ _ _ Hok) as [H0 HL0].
  assert (h ≠ NULL) as Hh0 by (destruct Hok as (_ & _ & ?); unfold NULL, h; lia).
  assert (t ≠ NULL) as Ht0 by (unfold NULL, t; lia).
  assert (h ≠ t) as Hht by (unfold h, t; lia).
  set (Hn := mkNode (-1) (-1) 1 NULL NULL).
  set (nd1 := <[h := Hn]> (nodes s)).
  set (nd2 := <[t := Hn]> nd1).
  set (nd3 := <[h := with_next t Hn]> nd2).
  set (nd4 := <[t := with_prev h Hn]> nd3).
  exists nd4. split_and!.
  - unfold new_List. mstep (new_Node_spec s (-1) (-1)).
    erewrite bind_eq; [| apply new_Node_spec]. cbv beta. simpl brk. simpl nodes.
    fold h t Hn nd1 nd2.
    erewrite bind_eq; [| apply (wrNode_eq _ h Hn); simpl;
      [subst nd2 nd1; by rewrite !lookup_insert_ne
      | subst nd2 nd1; rewrite lookup_insert_ne by done; by rewrite lookup_insert_eq]].
    cbv beta.
    erewrite bind_eq; [| apply (wrNode_eq _ t Hn); simpl;
      [fold nd3; subst nd3 nd2 nd1; by rewrite !lookup_insert_ne
      | fold nd3; subst nd3; rewrite lookup_insert_ne by done; subst nd2;
        by rewrite lookup_insert_eq]].
    cbv beta. reflexivity.
  - subst nd4 nd3. rewrite lookup_insert_ne by done. by rewrite lookup_insert_eq.
  - subst nd4. by rewrite lookup_insert_eq.
  - intros x Hx1 Hx2. subst nd4 nd3 nd2 nd1. by rewrite !lookup_insert_ne.
Qed.

(** ** The bucket structure under updates *)

Lemma upd_eq bk f ns : upd bk f ns f = ns.
Proof. unfold upd. by rewrite decide_True. Qed.

Lemma upd_ne bk f ns x : x ≠ f → upd bk f ns x = bk x.
Proof. intros. unfold upd. by rewrite decide_False. Qed.

Lemma elem_of_cells L ns x :
  x ∈ cells L ns ↔ x = head L ∨ x ∈ ns ∨ x = tail L.
Proof. unfold cells. set_solver. Qed.

Lemma bucket_alloc nd ls la ns L x :
  bucket_at nd ls la ns L → x ∈ cells L ns → is_Some (nd !! x).
Proof. intros [_ _ Hc _] Hx. by eapply chain_alloc. Qed.

Lemma Buckets_inj nd ls lm bk f f' la :
  Buckets nd ls lm bk → lm !! f = Some la → lm !! f' = Some la → f = f'.
Proof.
  intros HB H1 H2. destruct (decide (f = f')) as [|Hne]; [done | exfalso].
  destruct (B_at _ _ _ _ HB _ _ H1) as [L HL].
  destruct (B_at _ _ _ _ HB _ _ H2) as [L' HL'].
  pose proof (ba_list _ _ _ _ _ HL) as E. pose proof (ba_list _ _ _ _ _ HL') as E'.
  eapply (B_sep _ _ _ _ HB f f' la la L L' (head L)); eauto.
  - apply elem_of_cells; auto.
  - assert (L' = L) as -> by congruence. apply elem_of_cells; auto.
Qed.

(** Only the links matter for the shape. *)
Lemma Buckets_links nd nd' ls lm bk :
  Buckets nd ls lm bk →
  (∀ x, nxt nd' x = nxt nd x) → (∀ x, prv nd' x = prv nd x) →
  Buckets nd' ls lm bk.
Proof.
  intros [H0 HL0 Hat Hsep Hnone] Hn Hp. split; try done.
  - specialize (Hn NULL). unfold nxt in Hn. rewrite H0 in Hn.
    by destruct (nd' !! NULL).
  - intros f la Hf. destruct (Hat f la Hf) as [L [E1 E2 E3 E4]].
    exists L. split; try done. eapply chain_ext; eauto.
Qed.

(** One bucket gets new contents [ns']; nodes outside it are untouched. *)
Lemma Buckets_upd nd nd' ls lm bk f la L L' ns' :
  Buckets nd ls lm bk →
  lm !! f = Some la → ls !! la = Some L →
  bucket_at nd' (<[la := L']> ls) la ns' L' →
  head L' = head L → tail L' = tail L →
  nd' !! NULL = None →
  (∀ x, x ∉ cells L ns' → nd' !! x = nd !! x) →
  (∀ f' la' L1 x, f' ≠ f → lm !! f' = Some la' → ls !! la' = Some L1 →
                  x ∈ cells L1 (bk f') → x ∉ ns') →
  Buckets nd' (<[la := L']> ls) lm (upd bk f ns').
Proof.
  intros HB Hf HL Hnew Hh Ht H0' Hfr Hout.
  pose proof HB as [H0 HL0 Hat Hsep Hnone].
  assert (la ≠ NULL) as Hla0 by (eapply lookup_not_NULL; eauto).
  destruct (Hat f la Hf) as [L0 HbL].
  assert (L0 = L) as -> by (destruct HbL; congruence).
  assert (∀ f' la', f' ≠ f → lm !! f' = Some la' → la' ≠ la) as Hinj.
  { intros f' la' Hne Hf' ->. apply Hne. eapply Buckets_inj; eauto. }
  assert (∀ f' la' L1 x, f' ≠ f → lm !! f' = Some la' → ls !! la' = Some L1 →
            x ∈ cells L1 (bk f') → x ∉ cells L ns') as Hout'.
  { intros f' la' L1 x Hne Hf' HL1 Hx Hx'.
    apply elem_of_cells in Hx' as [->|[Hx'| ->]].
    - eapply (Hsep f' f); eauto. apply elem_of_cells; auto.
    - eapply Hout; eauto.
    - eapply (Hsep f' f); eauto. apply elem_of_cells; auto. }
  split; try done.
  - by rewrite lookup_insert_ne.
  - intros f' la' Hf'. destruct (decide (f' = f)) as [->|Hne].
    + rewrite upd_eq. assert (la' = la) as -> by congruence. eauto.
    + rewrite upd_ne by done.
      destruct (Hat f' la' Hf') as [L1 [E1 E2 E3 E4]]. exists L1.
      split; try done.
      * rewrite lookup_insert_ne; [done |]. intros E. eapply Hinj; eauto.
      * eapply chain_ext; [exact E3 | |]; intros x Hx.
        -- unfold nxt. rewrite Hfr; [done |]. eapply Hout'; eauto.
           unfold cells. set_solver.
        -- unfold prv. rewrite Hfr; [done |]. eapply Hout'; eauto.
           unfold cells. set_solver.
  - intros f1 f2 la1 la2 L1 L2 x Hne H1 H2 HL1 HL2 Hx1 Hx2.
    destruct (decide (f1 = f)) as [->|Hn1]; [| destruct (decide (f2 = f)) as [->|Hn2]].
    + rewrite upd_eq in Hx1. rewrite upd_ne in Hx2 by done.
      assert (la1 = la) as -> by congruence.
      rewrite lookup_insert_eq in HL1. injection HL1 as <-.
      rewrite lookup_insert_ne in HL2 by (intros E; eapply (Hinj f2); eauto).
      eapply (Hout' f2); eauto.
      apply elem_of_cells. apply elem_of_cells in Hx1. by rewrite <- Hh, <- Ht.
    + rewrite upd_eq in Hx2. rewrite upd_ne in Hx1 by done.
      assert (la2 = la) as -> by congruence.
      rewrite lookup_insert_eq in HL2. injection HL2 as <-.
      rewrite lookup_insert_ne in HL1 by (intros E; eapply (Hinj f1); eauto).
      eapply (Hout' f1); eauto.
      apply elem_of_cells. apply elem_of_cells in Hx2. by rewrite <- Hh, <- Ht.
    + rewrite upd_ne in Hx1, Hx2 by done.
      rewrite lookup_insert_ne in HL1 by (intros E; eapply (Hinj f1); eauto).
      rewrite lookup_insert_ne in HL2 by (intros E; eapply (Hinj f2); eauto).
      eapply (Hsep f1 f2); eauto.
  - intros f' Hf'. rewrite upd_ne; [by apply Hnone |]. intros ->. congruence.
Qed.

(** A freshly allocated empty list is registered under a free frequency. *)
Lemma Buckets_new nd nd' ls lm bk b f :
  Buckets nd ls lm bk → heap_ok nd ls b → lm !! f = None →
  let h := b in
  let t := S b in
  let l := S (S b) in
  nd' !! h = Some (mkNode (-1) (-1) 1 t NULL) →
  nd' !! t = Some (mkNode (-1) (-1) 1 NULL h) →
  (∀ x, x ≠ h → x ≠ t → nd' !! x = nd !! x) →
  Buckets nd' (<[l := mkList h t 0]> ls) (<[f := l]> lm) bk.
Proof.
  intros HB Hok Hf h t l Hh Ht Hfr.
  pose proof HB as [H0 HL0 Hat Hsep Hnone].
  destruct (heap_ok_fresh _ _ _ h Hok) as [Hhf _]; [unfold h; lia |].
  destruct (heap_ok_fresh _ _ _ t Hok) as [Htf _]; [unfold t; lia |].
  destruct (heap_ok_fresh _ _ _ l Hok) as [_ Hlf]; [unfold l; lia |].
  assert (h ≠ NULL) as Hh0 by (destruct Hok as (_ & _ & ?); unfold NULL, h; lia).
  assert (∀ f' la' L1 x, lm !! f' = Some la' → ls !! la' = Some L1 →
            x ∈ cells L1 (bk f') → x ≠ h ∧ x ≠ t) as Hold.
  { intros f' la' L1 x Hf' HL1 Hx. destruct (Hat f' la' Hf') as [L2 HbL].
    assert (L2 = L1) as -> by (destruct HbL; congruence).
    destruct (bucket_alloc _ _ _ _ _ x HbL Hx) as [N HN].
    split; intros ->; congruence. }
  assert (∀ f' la', lm !! f' = Some la' → la' ≠ l) as Hlne.
  { intros f' la' Hf' ->. destruct (Hat f' l Hf') as [L2 [E _ _ _]]. congruence. }
  assert (bk f = []) as Hbf by by apply Hnone.
  split.
  - rewrite Hfr; [done | congruence | unfold NULL, t; lia].
  - rewrite lookup_insert_ne; [done | unfold NULL, l; lia].
  - intros f' la'. rewrite lookup_insert. case_decide as Hd.
    + intros [= <-]. subst f'. rewrite Hbf. exists (mkList h t 0). split; simpl.
      * by rewrite lookup_insert_eq.
      * done.
      * unfold nxt, prv. by rewrite Hh, Ht.
      * unfold cells. simpl. apply NoDup_cons. split; [| apply NoDup_singleton].
        apply not_elem_of_cons. split; [unfold h, t; lia | apply not_elem_of_nil].
    + intros Hf'. destruct (Hat f' la' Hf') as [L1 [E1 E2 E3 E4]]. exists L1.
      split; try done.
      * rewrite lookup_insert_ne; [done |]. intros <-. eapply Hlne; eauto.
      * eapply chain_ext; [exact E3 | |]; intros x Hx.
        -- destruct (Hold f' la' L1 x Hf' E1) as [? ?]; [unfold cells; set_solver |].
           unfold nxt. by rewrite Hfr.
        -- destruct (Hold f' la' L1 x Hf' E1) as [? ?]; [unfold cells; set_solver |].
           unfold prv. by rewrite Hfr.
  - intros f1 f2 la1 la2 L1 L2 x Hne H1 H2 HL1 HL2 Hx1 Hx2.
    destruct (decide (f = f1)) as [<-|Hn1]; [| destruct (decide (f = f2)) as [<-|Hn2]].
    + rewrite lookup_insert_eq in H1. injection H1 as <-.
      rewrite lookup_insert_ne in H2 by done.
      rewrite lookup_insert_eq in HL1. injection HL1 as <-.
      rewrite lookup_insert_ne in HL2 by (intros <-; eapply Hlne; eauto).
      rewrite Hbf in Hx1.
      destruct (Hold f2 la2 L2 x H2 HL2 Hx2) as [? ?].
      apply elem_of_cells in Hx1. simpl in Hx1. set_solver.
    + rewrite lookup_insert_eq in H2. injection H2 as <-.
      rewrite lookup_insert_ne in H1 by done.
      rewrite lookup_insert_eq in HL2. injection HL2 as <-.
      rewrite lookup_insert_ne in HL1 by (intros <-; eapply Hlne; eauto).
      rewrite Hbf in Hx2.
      destruct (Hold f1 la1 L1 x H1 HL1 Hx1) as [? ?].
      apply elem_of_cells in Hx2. simpl in Hx2. set_solver.
    + rewrite lookup_insert_ne in H1, H2 by done.
      pose proof (Hlne _ _ H1). pose proof (Hlne _ _ H2).
      rewrite lookup_insert_ne in HL1, HL2 by done.
      eapply (Hsep f1 f2); eauto.
  - intros f'. rewrite lookup_insert. case_decide; [done | apply Hnone].
Qed.

Lemma dat_is_Some nd nd' x :
  dat nd' x = dat nd x → is_Some (nd' !! x) ↔ is_Some (nd !! x).
Proof.
  unfold dat. destruct (nd' !! x), (nd !! x); simpl; intros E;
    split; intros [? ?]; eauto; congruence.
Qed.

(** [delNode] takes one element out of its bucket and leaves every other
    bucket as it is. *)
Lemma unlink_spec s lm bk f la l1 a l2 :
  Buckets (nodes s) (lists s) lm bk →
  lm !! f = Some la → bk f = l1 ++ a :: l2 →
  ∃ nd' L,
    lists s !! la = Some L ∧
    delNode la a s
    = Some (tt, with_store nd' (<[la := with_size (size L - 1) L]> (lists s))
                           (brk s) s)
    ∧ size L - 1 = Z.of_nat (length (l1 ++ l2))
    ∧ Buckets nd' (<[la := with_size (size L - 1) L]> (lists s)) lm
              (upd bk f (l1 ++ l2))
    ∧ (∀ x, dat nd' x = dat (nodes s) x)
    ∧ nd' !! a = nodes s !! a
    ∧ a ∉ cells L (l1 ++ l2).
Proof.
  intros HB Hf Hbk. pose proof HB as [H0 HL0 Hat Hsep Hnone].
  destruct (Hat f la Hf) as [L HbL]. rewrite Hbk in HbL.
  destruct (delNode_spec s la a L l1 l2 H0 HL0 HbL) as (nd' & Hrun & H0' & Hdat & Hch & Hfr).
  pose proof HbL as [HL Hsz Hc Hnd].
  assert (a ∉ cells L (l1 ++ l2)) as Ha.
  { unfold cells in *. rewrite <- app_assoc in Hnd. simpl in Hnd.
    change (head L :: l1 ++ a :: l2 ++ [tail L])
      with ((head L :: l1) ++ a :: l2 ++ [tail L]) in Hnd.
    apply NoDup_app in Hnd as (_ & Hd & Hnd).
    apply NoDup_cons in Hnd as [Ha _].
    intros Hin. rewrite <- app_assoc in Hin.
    change (head L :: l1 ++ l2 ++ [tail L])
      with ((head L :: l1) ++ l2 ++ [tail L]) in Hin.
    apply elem_of_app in Hin as [Hin|Hin]; [| done].
    apply (Hd a Hin). set_solver. }
  assert (size L - 1 = Z.of_nat (length (l1 ++ l2))) as Hsz'.
  { rewrite Hsz. rewrite !length_app. simpl. lia. }
  exists nd', L. split_and!; try done.
  - eapply (Buckets_upd _ _ _ _ _ f la L); eauto.
    + split; simpl; try done.
      * by rewrite lookup_insert_eq.
      * unfold cells in *. simpl. rewrite <- app_assoc in Hnd. simpl in Hnd.
        rewrite <- app_assoc.
        change (NoDup ((head L :: l1) ++ l2 ++ [tail L])).
        change (head L :: l1 ++ a :: l2 ++ [tail L])
          with ((head L :: l1) ++ a :: l2 ++ [tail L]) in Hnd.
        apply NoDup_app in Hnd as (Hn1 & Hd & Hnd).
        apply NoDup_cons in Hnd as [_ Hn2].
        apply NoDup_app. split_and!; [done | | done].
        intros x Hx Hx'. apply (Hd x Hx). set_solver.
    + intros f' la' L1 x Hne Hf' HL1 Hx Hx'.
      eapply (Hsep f' f); eauto. rewrite Hbk. unfold cells. set_solver.
  - by apply Hfr.
Qed.

(** [addNode] puts a node that belongs to no bucket at the front of one. *)
Lemma link_spec s lm bk f la a A :
  Buckets (nodes s) (lists s) lm bk →
  lm !! f = Some la → nodes s !! a = Some A →
  (∀ f' la' L', lm !! f' = Some la' → lists s !! la' = Some L' →
                a ∉ cells L' (bk f')) →
  ∃ nd' L,
    lists s !! la = Some L ∧
    addNode la a s
    = Some (tt, with_store nd' (<[la := with_size (size L + 1) L]> (lists s))
                           (brk s) s)
    ∧ Buckets nd' (<[la := with_size (size L + 1) L]> (lists s)) lm
              (upd bk f (a :: bk f))
    ∧ (∀ x, dat nd' x = dat (nodes s) x).
Proof.
  intros HB Hf Ha Hfresh. pose proof HB as [H0 HL0 Hat Hsep Hnone].
  destruct (Hat f la Hf) as [L HbL]. pose proof HbL as [HL Hsz Hc Hnd].
  destruct (addNode_spec s la a L (bk f) A H0 HL0 HbL Ha) as (nd' & Hrun & H0' & Hdat & Hch & Hfr);
    [by eapply Hfresh |].
  exists nd', L. split_and!; try done.
  eapply (Buckets_upd _ _ _ _ _ f la L); eauto.
  - split; simpl; try done.
    + by rewrite lookup_insert_eq.
    + rewrite Hsz. rewrite Nat2Z.inj_succ. lia.
    + unfold cells in *. simpl.
      change (NoDup ([head L; a] ++ bk f ++ [tail L])).
      change (NoDup ([head L] ++ bk f ++ [tail L])) in Hnd.
      specialize (Hfresh f la L Hf HL).
      apply NoDup_app in Hnd as (_ & Hd & Hnd).
      apply NoDup_app. split_and!; [| | done].
      * apply NoDup_cons. split; [set_solver | apply NoDup_singleton].
      * intros x Hx Hx'. apply elem_of_cons in Hx as [->|Hx]; [by apply (Hd (head L)); set_solver |].
        apply list_elem_of_singleton in Hx as ->. set_solver.
  - intros f' la' L1 x Hne Hf' HL1 Hx Hx'.
    apply elem_of_cons in Hx' as [->|Hx'].
    + by eapply (Hfresh f').
    + eapply (Hsep f' f); eauto. unfold cells. set_solver.
Qed.

(** ** Histories and the invariant *)

Lemma StronglySorted_weaken {A} (R R' : relation A) (l : list A) :
  StronglySorted R l →
  (∀ x y, x ∈ l → y ∈ l → R x y → R' x y) →
  StronglySorted R' l.
Proof.
  induction l as [|x l IH]; intros Hs Himp; [constructor |].
  apply StronglySorted_cons in Hs as [Hf Hs]. apply StronglySorted_cons. split.
  - rewrite Forall_forall in *. intros y Hy. apply Himp; [set_solver.. |]. by apply Hf.
  - apply IH; [done |]. intros y z Hy Hz. apply Himp; set_solver.
Qed.

Lemma StronglySorted_remove {A} (R : relation A) (l1 l2 : list A) (a : A) :
  StronglySorted R (l1 ++ a :: l2) → StronglySorted R (l1 ++ l2).
Proof.
  rewrite !StronglySorted_app. intros (H1 & H2 & H3).
  apply StronglySorted_cons in H3 as [_ H3]. split_and!; [| done..].
  intros x y Hx Hy. apply H1; set_solver.
Qed.

Lemma age_cons_eq o h : age (o :: h) (okey o) = 0%nat.
Proof. simpl. by rewrite decide_True. Qed.

Lemma age_cons_ne o h k : okey o ≠ k → age (o :: h) k = S (age h k).
Proof. intros. simpl. by rewrite decide_False. Qed.

(** One more call, on a key held by none of the nodes of [l]: their
    relative recency is unchanged. *)
Lemma sorted_shift h o nd nd' (l : list ptr) :
  StronglySorted (newer h nd) l →
  (∀ x, x ∈ l → kof nd' x = kof nd x) →
  (∀ x, x ∈ l → kof nd x ≠ okey o) →
  StronglySorted (newer (o :: h) nd') l.
Proof.
  intros Hs Hk Hne. eapply StronglySorted_weaken; [exact Hs |].
  intros x y Hx Hy. unfold newer. rewrite !Hk by done.
  rewrite (age_cons_ne o h (kof nd x)), (age_cons_ne o h (kof nd y));
    [lia | intros E; by apply (Hne y) | intros E; by apply (Hne x)].
Qed.

Lemma walk_chain nd ns : ∀ h t,
  chain nd h ns t → walk nd h (length ns) = ns.
Proof.
  induction ns as [|n ns IH]; simpl; intros h t Hc; [done |].
  destruct Hc as (H1 & _ & H3). rewrite H1. f_equal. by eapply IH.
Qed.

(** The contents recorded by the invariant are those found in the store. *)
Lemma Inv_bucket h s bk f : Inv h s bk → bucket s f = bk f.
Proof.
  intros HI. destruct (I_bk _ _ _ HI) as [_ _ Hat _ Hnone]. unfold bucket.
  destruct (listMap s !! f) as [la|] eqn:E; [| symmetry; by apply Hnone].
  destruct (Hat f la E) as [L [HL Hsz Hc _]]. rewrite HL, Hsz, Nat2Z.id.
  by eapply walk_chain.
Qed.

Lemma Inv_init cap : Inv [] (LFUCache cap) (λ _, []).
Proof.
  split; simpl; try done.
  - split_and!; [intros p [? H]; by rewrite lookup_empty in H.. | lia].
  - intros f a Ha. by apply elem_of_nil in Ha.
  - intros _. constructor.
Qed.

Lemma dat_lookup nd x k v c :
  dat nd x = Some (k, v, c) →
  ∃ N, nd !! x = Some N ∧ key N = k ∧ val N = v ∧ count N = c.
Proof.
  unfold dat. destruct (nd !! x) as [N|]; simpl; [| done].
  intros [= <- <- <-]. eauto.
Qed.

Lemma dat_kof_eq nd x k v c : dat nd x = Some (k, v, c) → kof nd x = k.
Proof. intros (N & E & <- & _)%dat_lookup. unfold kof. by rewrite E. Qed.

Lemma Inv_nodup h s bk f : Inv h s bk → NoDup (bk f).
Proof.
  intros HI. destruct (I_bk _ _ _ HI) as [_ _ Hat _ Hnone].
  destruct (listMap s !! f) as [la|] eqn:E.
  - destruct (Hat f la E) as [L [_ _ _ Hnd]]. unfold cells in Hnd.
    apply NoDup_cons in Hnd as [_ Hnd]. by apply NoDup_app in Hnd as (? & _).
  - rewrite (Hnone f E). constructor.
Qed.

(** Two nodes held by buckets carry different keys. *)
Lemma Inv_key_inj h s bk f f' x y :
  Inv h s bk → x ∈ bk f → y ∈ bk f' →
  kof (nodes s) x = kof (nodes s) y → x = y.
Proof.
  intros HI Hx Hy E.
  destruct (I_data _ _ _ HI f x Hx) as (k & v & Hd & Hn).
  destruct (I_data _ _ _ HI f' y Hy) as (k' & v' & Hd' & Hn').
  rewrite (dat_kof_eq _ _ _ _ _ Hd), (dat_kof_eq _ _ _ _ _ Hd') in E. congruence.
Qed.

(** The data-level part of a promotion: node [a], holding key [k], moves
    from the bucket of frequency [c] to the front of that of [c + 1]. *)
Lemma Inv_promote h s bk o k a v c l1 l2 sF :
  Inv h s bk → okey o = k → nodeMap s !! k = Some a →
  dat (nodes s) a = Some (k, v, c) → bk c = l1 ++ a :: l2 →
  let bk2 := upd (upd bk c (l1 ++ l2)) (c + 1) (a :: bk (c + 1)) in
  heap_ok (nodes sF) (lists sF) (brk sF) →
  Buckets (nodes sF) (lists sF) (listMap sF) bk2 →
  nodeMap sF = nodeMap s → curSize sF = curSize s → maxSize sF = maxSize s →
  minf sF = (if decide (c = minf s)
             then if decide (l1 ++ l2 = []) then minf s + 1 else minf s
             else minf s) →
  dat (nodes sF) a = Some (k, v, c + 1) →
  (∀ x, x ≠ a → is_Some (nodes s !! x) → dat (nodes sF) x = dat (nodes s) x) →
  Inv (o :: h) sF bk2.
Proof.
  intros HI Hk Hnm Hda Hbk bk2 Hok HB Enm Ecs Ems Emf Hda' Hfr.
  assert (a ∈ bk c) as Hac by (rewrite Hbk; set_solver).
  assert (a ∉ l1 ++ l2) as Hnd.
  { pose proof (Inv_nodup _ _ _ c HI) as Hn. rewrite Hbk in Hn.
    apply NoDup_app in Hn as (_ & Hd & Hn). apply NoDup_cons in Hn as [Ha _].
    intros [Hin|Hin]%elem_of_app; [| done]. apply (Hd a Hin). set_solver. }
  assert (1 ≤ c) as Hc1.
  { apply (I_pos _ _ _ HI). rewrite Hbk. by destruct l1. }
  assert (∀ f x, x ∈ bk f → x ≠ a → dat (nodes sF) x = dat (nodes s) x) as Hfr'.
  { intros f x Hx Hne. apply Hfr; [done |].
    destruct (I_data _ _ _ HI f x Hx) as (k' & v' & Hd & _).
    apply dat_lookup in Hd as (N & -> & _). eauto. }
  assert (∀ f x, x ∈ bk f → f ≠ c → x ≠ a) as Hother.
  { intros f x Hx Hne ->.
    destruct (I_data _ _ _ HI f a Hx) as (k' & v' & Hd & _). congruence. }
  assert (∀ f x, x ∈ bk f → kof (nodes sF) x = kof (nodes s) x) as Hkof.
  { intros f x Hx. destruct (decide (x = a)) as [->|Hne].
    - by rewrite (dat_kof_eq _ _ _ _ _ Hda), (dat_kof_eq _ _ _ _ _ Hda').
    - apply dat_kof. by eapply Hfr'. }
  assert (∀ f x, x ∈ bk f → x ≠ a → kof (nodes s) x ≠ okey o) as Hkne.
  { intros f x Hx Hne E. apply Hne. eapply (Inv_key_inj _ _ _ f c); eauto.
    rewrite E, Hk. symmetry. by eapply dat_kof_eq. }
  split.
  - done.
  - done.
  - intros f x. unfold bk2, upd.
    destruct (decide (f = c + 1)) as [->|Hf1]; [| destruct (decide (f = c)) as [->|Hf2]].
    + intros [->|Hx]%elem_of_cons.
      * exists k, v. by rewrite Enm.
      * destruct (I_data _ _ _ HI (c + 1) x Hx) as (k' & v' & Hd & Hn).
        exists k', v'. rewrite Enm. split; [| done].
        rewrite (Hfr' (c + 1)); [done.. |]. eapply Hother; eauto. lia.
    + intros Hx. assert (x ∈ bk c) as Hx' by (rewrite Hbk; set_solver).
      destruct (I_data _ _ _ HI c x Hx') as (k' & v' & Hd & Hn).
      exists k', v'. rewrite Enm. split; [| done].
      rewrite (Hfr' c); [done.. |]. intros ->. done.
    + intros Hx.
      destruct (I_data _ _ _ HI f x Hx) as (k' & v' & Hd & Hn).
      exists k', v'. rewrite Enm. split; [| done].
      rewrite (Hfr' f); [done.. |]. eapply Hother; eauto.
  - intros k' x. rewrite Enm. intros Hx.
    destruct (I_nm _ _ _ HI k' x Hx) as (v' & c' & Hd & Hin).
    destruct (decide (x = a)) as [->|Hne].
    + assert (k' = k ∧ v' = v ∧ c' = c) as (-> & -> & ->) by (split_and!; congruence).
      exists v, (c + 1). split; [done |]. unfold bk2. rewrite upd_eq. set_solver.
    + exists v', c'. split; [rewrite (Hfr' c'); done |]. unfold bk2, upd.
      destruct (decide (c' = c + 1)) as [->|Hf1]; [set_solver |].
      destruct (decide (c' = c)) as [->|Hf2]; [| done].
      rewrite Hbk in Hin. set_solver.
  - rewrite Ecs, Enm. apply (I_size _ _ _ HI).
  - rewrite Ecs. intros Hpos. destruct (I_min _ _ _ HI Hpos) as [Hm1 Hm2].
    rewrite Emf. unfold bk2, upd.
    destruct (decide (c = minf s)) as [Ec|Ec].
    + destruct (decide (l1 ++ l2 = [])) as [El|El].
      * split; [by rewrite decide_True by lia |].
        intros f. destruct (decide (f = c + 1)) as [->|Hf1]; [lia |].
        destruct (decide (f = c)) as [->|Hf2]; [done |].
        intros Hf. specialize (Hm2 f Hf). lia.
      * split.
        -- rewrite decide_False by lia. by rewrite decide_True by lia.
        -- intros f. destruct (decide (f = c + 1)) as [->|Hf1]; [lia |].
           destruct (decide (f = c)) as [->|Hf2]; [lia |]. apply Hm2.
    + assert (minf s ≤ c) as Hle by (apply Hm2; rewrite Hbk; by destruct l1).
      split.
      * destruct (decide (minf s = c + 1)); [done |].
        by rewrite decide_False by lia.
      * intros f. destruct (decide (f = c + 1)) as [->|Hf1]; [lia |].
        destruct (decide (f = c)) as [->|Hf2]; [lia |]. apply Hm2.
  - intros f. unfold bk2, upd.
    destruct (decide (f = c + 1)) as [->|Hf1]; [lia |].
    destruct (decide (f = c)) as [->|Hf2]; [lia |]. apply (I_pos _ _ _ HI).
  - rewrite Ecs, Ems. apply (I_cap _ _ _ HI).
  - intros f. unfold bk2, upd.
    destruct (decide (f = c + 1)) as [->|Hf1]; [| destruct (decide (f = c)) as [->|Hf2]].
    + apply StronglySorted_cons. split.
      * apply Forall_forall. intros y Hy. unfold newer.
        rewrite (dat_kof_eq _ _ _ _ _ Hda'), <- Hk, age_cons_eq.
        rewrite (Hkof (c + 1) y Hy). rewrite age_cons_ne; [lia |].
        intros E. eapply (Hkne (c + 1) y); eauto. eapply Hother; eauto. lia.
      * eapply sorted_shift; [apply (I_age _ _ _ HI) | |].
        -- intros x Hx. by eapply Hkof.
        -- intros x Hx. eapply Hkne; eauto. eapply Hother; eauto. lia.
    + pose proof (I_age _ _ _ HI c) as Hs. rewrite Hbk in Hs.
      apply StronglySorted_remove in Hs.
      eapply sorted_shift; [exact Hs | |].
      * intros x Hx. apply (Hkof c). rewrite Hbk. set_solver.
      * intros x Hx. apply (Hkne c); [rewrite Hbk; set_solver |]. by intros ->.
    + eapply sorted_shift; [apply (I_age _ _ _ HI) | |].
      * intros x Hx. by eapply Hkof.
      * intros x Hx. eapply Hkne; eauto.
Qed.

(** ** Promotion: [updateFreqList] *)

Lemma nxt_with_count nd p c N x :
  nd !! p = Some N → nxt (<[p := with_count c N]> nd) x = nxt nd x.
Proof.
  intros H. unfold nxt. rewrite lookup_insert.
  case_decide; [subst; by rewrite H | done].
Qed.

Lemma prv_with_count nd p c N x :
  nd !! p = Some N → prv (<[p := with_count c N]> nd) x = prv nd x.
Proof.
  intros H. unfold prv. rewrite lookup_insert.
  case_decide; [subst; by rewrite H | done].
Qed.

Lemma nxt_with_val nd p c N x :
  nd !! p = Some N → nxt (<[p := with_val c N]> nd) x = nxt nd x.
Proof.
  intros H. unfold nxt. rewrite lookup_insert.
  case_decide; [subst; by rewrite H | done].
Qed.

Lemma prv_with_val nd p c N x :
  nd !! p = Some N → prv (<[p := with_val c N]> nd) x = prv nd x.
Proof.
  intros H. unfold prv. rewrite lookup_insert.
  case_decide; [subst; by rewrite H | done].
Qed.

Lemma set_minf_id s : set_minf (minf s) s = s.
Proof. by destruct s. Qed.

Lemma heap_ok_dat nd nd' ls la L L' b :
  heap_ok nd ls b → (∀ x, dat nd' x = dat nd x) → ls !! la = Some L →
  heap_ok nd' (<[la := L']> ls) b.
Proof.
  intros (H1 & H2 & H3) Hd HL. split_and!; [| | done].
  - intros p Hp. apply H1. by apply (dat_is_Some _ _ _ (Hd p)).
  - intros p. rewrite lookup_insert. case_decide; [subst; intros _; apply H2; eauto | apply H2].
Qed.

Lemma heap_ok_insert nd ls b a N N' :
  heap_ok nd ls b → nd !! a = Some N → heap_ok (<[a := N']> nd) ls b.
Proof.
  intros (H1 & H2 & H3) Ha. split_and!; [| done..].
  intros p. rewrite lookup_insert.
  destruct (decide (a = p)) as [<-|]; [intros _; apply H1; eauto | apply H1].
Qed.

Lemma updateFreqList_spec h s bk o k a :
  Inv h s bk → okey o = k → nodeMap s !! k = Some a →
  ∃ s' v c l1 l2,
    dat (nodes s) a = Some (k, v, c) ∧ bk c = l1 ++ a :: l2 ∧
    updateFreqList a s = Some (tt, s') ∧
    Inv (o :: h) s' (upd (upd bk c (l1 ++ l2)) (c + 1) (a :: bk (c + 1))) ∧
    nodeMap s' = nodeMap s ∧ curSize s' = curSize s ∧ maxSize s' = maxSize s ∧
    dat (nodes s') a = Some (k, v, c + 1) ∧
    (∀ x, x ≠ a → is_Some (nodes s !! x) → dat (nodes s') x = dat (nodes s) x).
Proof.
  intros HI Hk Hnm.
  destruct (I_nm _ _ _ HI k a Hnm) as (v & c & Hda & Hin).
  apply list_elem_of_split in Hin as (l1 & l2 & Hbk).
  destruct (dat_lookup _ _ _ _ _ Hda) as (N & HN & Ek & Ev & Ec).
  pose proof (I_bk _ _ _ HI) as HB. pose proof HB as [H0 HL0 Hat Hsep Hnone].
  pose proof (I_heap _ _ _ HI) as Hok.
  destruct (listMap s !! c) as [la|] eqn:Hla;
    [| specialize (Hnone c Hla); rewrite Hbk in Hnone; by destruct l1].
  destruct (unlink_spec s (listMap s) bk c la l1 a l2 HB Hla Hbk)
    as (nd1 & L & HL & Hrun1 & Hsz1 & HB1 & Hdat1 & Ha1 & Hnotin).
  set (bk1 := upd bk c (l1 ++ l2)) in *.
  set (ls1 := <[la := with_size (size L - 1) L]> (lists s)) in *.
  set (s1 := with_store nd1 ls1 (brk s) s) in *.
  set (m' := if decide (c = minf s)
             then if decide (l1 ++ l2 = []) then minf s + 1 else minf s
             else minf s).
  assert ((if decide (c = minf s) then
             let! L0 := rdList la in
             if decide (size L0 = 0) then modify (set_minf (minf s + 1)) else ret tt
           else ret tt) s1 = Some (tt, set_minf m' s1)) as Hblock.
  { subst m'. destruct (decide (c = minf s)) as [E|E].
    - erewrite bind_eq; [| apply (rdList_eq s1 la (with_size (size L - 1) L));
        [apply (B_lnull _ _ _ _ HB1) | subst s1 ls1; simpl; by rewrite lookup_insert_eq]].
      cbv beta. simpl size. rewrite Hsz1.
      destruct (decide (l1 ++ l2 = [])) as [El|El].
      + rewrite El. simpl. done.
      + rewrite decide_False by (destruct (l1 ++ l2); [done | simpl; lia]).
        exact (f_equal (λ x, Some ((), x)) (eq_sym (set_minf_id s1))).
    - exact (f_equal (λ x, Some ((), x)) (eq_sym (set_minf_id s1))). }
  set (s2 := set_minf m' s1) in *.
  assert (nd1 !! a = Some N) as HN1 by congruence.
  set (nd3 := <[a := with_count (count N + 1) N]> nd1).
  assert (Buckets nd3 ls1 (listMap s) bk1) as HB3.
  { eapply Buckets_links; [exact HB1 | |]; intros x; subst nd3.
    - by apply nxt_with_count.
    - by apply prv_with_count. }
  assert (heap_ok nd1 ls1 (brk s)) as Hok1 by (eapply heap_ok_dat; eauto).
  assert (∀ f' la' L', listMap s !! f' = Some la' → ls1 !! la' = Some L' →
              a ∉ cells L' (bk1 f')) as Hfresh.
    { intros f' la' L' Hf' HL'. subst bk1 ls1.
      destruct (decide (f' = c)) as [->|Hne].
      - rewrite upd_eq. assert (la' = la) as -> by congruence.
        rewrite lookup_insert_eq in HL'. injection HL' as <-. exact Hnotin.
      - rewrite upd_ne by done.
        assert (la' ≠ la) by (intros ->; apply Hne; eapply Buckets_inj; eauto).
        rewrite lookup_insert_ne in HL' by done. intros Hin.
        eapply (Hsep f' c); eauto. rewrite Hbk. unfold cells. set_solver. }
  destruct (listMap s !! (c + 1)) as [lb|] eqn:Hlb.
  - (* the list of frequency [c + 1] exists *)
    set (s3 := set_nodes (insert a (with_count (count N + 1) N)) s2).
    destruct (link_spec s3 (listMap s) bk1 (c + 1) lb a (with_count (count N + 1) N))
      as (nd4 & Lb & HLb & Hrun4 & HB4 & Hdat4).
    { exact HB3. }
    { exact Hlb. }
    { subst s3. simpl. by rewrite lookup_insert_eq. }
    { exact Hfresh. }
    assert (bk1 (c + 1) = bk (c + 1)) as Ebk1 by (subst bk1; apply upd_ne; lia).
    rewrite Ebk1 in HB4.
    set (sF := with_store nd4 (<[lb := with_size (size Lb + 1) Lb]> (lists s3)) (brk s3) s3) in *.
    assert (dat (nodes sF) a = Some (k, v, c + 1)) as HdaF.
    { subst sF. simpl. rewrite Hdat4. subst s3. simpl. unfold dat.
      rewrite lookup_insert_eq. simpl. by rewrite Ek, Ev, Ec. }
    assert (∀ x, x ≠ a → is_Some (nodes s !! x) →
                 dat (nodes sF) x = dat (nodes s) x) as HfrF.
    { intros x Hx _. subst sF. simpl. rewrite Hdat4. subst s3. simpl. unfold dat at 1.
      rewrite lookup_insert_ne by done. apply Hdat1. }
    exists sF, v, c, l1, l2. split_and!; try done.
    + unfold updateFreqList. mstep (rdNode_eq s a N H0 HN). rewrite Ec.
      mstep (listMap_at_eq s c la Hla). mstep Hrun1.
      mstep (rdNode_eq s1 a N (B_null _ _ _ _ HB1) HN1). rewrite Ec.
      erewrite bind_eq; [| reflexivity]. cbv beta. change (minf s1) with (minf s).
      mstep Hblock.
      mstep (rdNode_eq s2 a N (B_null _ _ _ _ HB1) HN1). rewrite Ec.
      erewrite bind_eq; [| reflexivity]. cbv beta.
      change (listMap s2) with (listMap s). rewrite Hlb.
      erewrite bind_eq;
        [| mstep (rdNode_eq s2 a N (B_null _ _ _ _ HB1) HN1); rewrite Ec;
           erewrite bind_eq; [| apply (listMap_at_eq _ (c + 1) lb); exact Hlb];
           reflexivity].
      cbv beta iota.
      erewrite bind_eq; [| apply (wrNode_eq _ a N);
                           [apply (B_null _ _ _ _ HB1) | exact HN1]].
      cbv beta. mstep Hrun4. reflexivity.
    + eapply (Inv_promote h s bk o k a v c l1 l2 sF); try done.
      subst sF. simpl. eapply heap_ok_dat; [| exact Hdat4 | exact HLb].
      subst s3. simpl. by eapply heap_ok_insert.
  - (* no list of frequency [c + 1] yet: one is allocated *)
    destruct (new_List_spec s2 Hok1) as (nd' & Hrun3 & Hh' & Ht' & Hfr').
    change (brk s2) with (brk s) in *. change (nodes s2) with nd1 in *.
    change (lists s2) with ls1 in *.
    set (hd := brk s) in *. set (tl := S (brk s)) in *. set (lb := S (S (brk s))) in *.
    set (ls' := <[lb := mkList hd tl 0]> ls1) in *.
    set (lm' := <[c + 1 := lb]> (listMap s)).
    assert (Buckets nd' ls' lm' bk1) as HB'.
    { eapply (Buckets_new nd1 nd' ls1 (listMap s) bk1 (brk s)); eauto. }
    assert (is_Some (nd1 !! a)) as Ha_al by eauto.
    destruct Hok1 as (P1 & P2 & P3). pose proof (P1 a Ha_al) as Ha_lt.
    assert (nd' !! a = Some N) as HN'.
    { rewrite Hfr'; [done | unfold hd; lia | unfold tl; lia]. }
    set (s3' := with_store nd' ls' (S lb) s2) in *.
    set (s3 := set_nodes (insert a (with_count (count N + 1) N)) s3').
    set (nd3' := <[a := with_count (count N + 1) N]> nd').
    assert (Buckets nd3' ls' lm' bk1) as HB3'.
    { eapply Buckets_links; [exact HB' | |]; intros x; subst nd3'.
      - by apply nxt_with_count.
      - by apply prv_with_count. }
    assert (bk (c + 1) = []) as Ebk by by apply Hnone.
    assert (bk1 (c + 1) = bk (c + 1)) as Ebk1 by (subst bk1; apply upd_ne; lia).
    destruct (link_spec s3 lm' bk1 (c + 1) lb a (with_count (count N + 1) N))
      as (nd4 & Lb & HLb & Hrun4 & HB4 & Hdat4).
    { exact HB3'. }
    { subst lm'. by rewrite lookup_insert_eq. }
    { subst s3. simpl. by rewrite lookup_insert_eq. }
    { intros f' la' L'. subst lm'. rewrite lookup_insert.
      destruct (decide (c + 1 = f')) as [<-|Hne].
      - intros [= <-]. change (lists s3) with ls'. subst ls'.
        rewrite lookup_insert_eq. intros [= <-]. rewrite Ebk1, Ebk.
        unfold cells. simpl. intros Hin.
        apply elem_of_cons in Hin as [->|Hin]; [unfold hd in Ha_lt; lia |].
        apply list_elem_of_singleton in Hin as ->. unfold tl in Ha_lt; lia.
      - intros Hf'. change (lists s3) with ls'. subst ls'.
        destruct (Hat f' la' Hf') as [L1 [HL1 _ _ _]].
        assert (la' ≠ lb).
        { intros ->. destruct (heap_ok_fresh _ _ _ lb Hok) as [_ E]; [unfold lb; lia |].
          congruence. }
        rewrite lookup_insert_ne by done. by apply Hfresh. }
    rewrite Ebk1 in HB4.
    set (s4 := with_store nd4 (<[lb := with_size (size Lb + 1) Lb]> (lists s3)) (brk s3) s3) in *.
    assert (dat nd4 a = Some (k, v, c + 1)) as HdaF.
    { rewrite Hdat4. subst s3. simpl. unfold dat.
      rewrite lookup_insert_eq. simpl. by rewrite Ek, Ev, Ec. }
    destruct (dat_lookup _ _ _ _ _ HdaF) as (N4 & HN4 & _ & _ & Ec4).
    set (sF := set_listMap (insert (c + 1) lb) s4).
    assert (∀ x, x ≠ a → is_Some (nodes s !! x) →
                 dat (nodes sF) x = dat (nodes s) x) as HfrF.
    { intros x Hx Hal. subst sF. simpl. rewrite Hdat4. subst s3. simpl. unfold dat at 1.
      rewrite lookup_insert_ne by done.
      apply (dat_is_Some _ _ _ (Hdat1 x)) in Hal. apply P1 in Hal.
      rewrite Hfr'; [apply Hdat1 | unfold hd; lia | unfold tl; lia]. }
    exists sF, v, c, l1, l2. split_and!; try done.
    + unfold updateFreqList. mstep (rdNode_eq s a N H0 HN). rewrite Ec.
      mstep (listMap_at_eq s c la Hla). mstep Hrun1.
      mstep (rdNode_eq s1 a N (B_null _ _ _ _ HB1) HN1). rewrite Ec.
      erewrite bind_eq; [| reflexivity]. cbv beta. change (minf s1) with (minf s).
      mstep Hblock.
      mstep (rdNode_eq s2 a N (B_null _ _ _ _ HB1) HN1). rewrite Ec.
      erewrite bind_eq; [| reflexivity]. cbv beta.
      change (listMap s2) with (listMap s). rewrite Hlb.
      erewrite bind_eq; [| erewrite bind_eq; [| exact Hrun3]; reflexivity].
      cbv beta iota.
      erewrite bind_eq; [| apply (wrNode_eq _ a N);
                           [apply (B_null _ _ _ _ HB') | exact HN']].
      cbv beta. mstep Hrun4.
      erewrite bind_eq; [| apply (rdNode_eq _ a N4);
                           [apply (B_null _ _ _ _ HB4) | exact HN4]].
      cbv beta. rewrite Ec4. reflexivity.
    + eapply (Inv_promote h s bk o k a v c l1 l2 sF); try done.
      subst sF. simpl. eapply heap_ok_dat; [| exact Hdat4 | exact HLb].
      subst s3. simpl. eapply heap_ok_insert; [| exact HN'].
      split_and!; [| | lia].
      * intros p Hp. destruct (decide (p = hd)) as [->|Hp1]; [unfold hd, lb; lia |].
        destruct (decide (p = tl)) as [->|Hp2]; [unfold tl, lb; lia |].
        rewrite Hfr' in Hp by done. apply P1 in Hp. unfold lb. lia.
      * intros p. subst ls'. rewrite lookup_insert.
        destruct (decide (lb = p)) as [<-|]; [lia |].
        intros Hp. apply P2 in Hp. unfold lb. lia.
Qed.

(** ** Eviction and insertion *)

Lemma Inv_Pre h s bk : Inv h s bk → Pre h s bk.
Proof. intros []. by split. Qed.

(** Allocating or overwriting payloads leaves the shape alone as long as
    the links of the allocated nodes are kept. *)
Lemma Buckets_frame nd nd' ls lm bk :
  Buckets nd ls lm bk → nd' !! NULL = None →
  (∀ x, is_Some (nd !! x) → nxt nd' x = nxt nd x ∧ prv nd' x = prv nd x) →
  Buckets nd' ls lm bk.
Proof.
  intros [H0 HL0 Hat Hsep Hnone] H0' Hfr. split; try done.
  intros f la Hf. destruct (Hat f la Hf) as [L [E1 E2 E3 E4]].
  exists L. split; try done.
  eapply chain_ext; [exact E3 | |]; intros x Hx; apply Hfr;
    eapply chain_alloc; eauto; set_solver.
Qed.

(** Data-level part of the eviction: the last node [av] of the bucket of
    frequency [m] leaves the cache together with its key [kv]. *)
Lemma Pre_evict h s bk m l1 av kv vv sE :
  Pre h s bk → bk m = l1 ++ [av] →
  dat (nodes s) av = Some (kv, vv, m) →
  let bkE := upd bk m l1 in
  heap_ok (nodes sE) (lists sE) (brk sE) →
  Buckets (nodes sE) (lists sE) (listMap sE) bkE →
  nodeMap sE = delete kv (nodeMap s) → curSize sE = curSize s - 1 →
  (∀ x, dat (nodes sE) x = dat (nodes s) x) →
  Pre h sE bkE.
Proof.
  intros HP Hbk Hdv bkE Hok HB Enm Ecs Hdat.
  assert (av ∈ bk m) as Hav by (rewrite Hbk; set_solver).
  destruct (P_data _ _ _ HP m av Hav) as (kv' & vv' & Hdv' & Hnv).
  assert (kv' = kv) as -> by congruence. clear vv' Hdv'.
  assert (NoDup (bk m)) as Hnd.
  { destruct (P_bk _ _ _ HP) as [_ _ Hat _ Hnone].
    destruct (listMap s !! m) as [la|] eqn:E.
    - destruct (Hat m la E) as [L [_ _ _ Hn]]. unfold cells in Hn.
      apply NoDup_cons in Hn as [_ Hn]. by apply NoDup_app in Hn as (? & _).
    - rewrite (Hnone m E). constructor. }
  assert (av ∉ l1) as Hnl.
  { rewrite Hbk in Hnd. apply NoDup_app in Hnd as (_ & Hd & _).
    intros Hin. apply (Hd av Hin). set_solver. }
  assert (∀ f x, x ∈ bkE f → x ∈ bk f ∧ x ≠ av) as Hsub.
  { intros f x. unfold bkE, upd. destruct (decide (f = m)) as [->|Hne].
    - intros Hx. split; [rewrite Hbk; set_solver | by intros ->].
    - intros Hx. split; [done |]. intros ->.
      destruct (P_data _ _ _ HP f av Hx) as (? & ? & Hd & _). congruence. }
  assert (∀ f x, x ∈ bk f → x ≠ av → x ∈ bkE f) as Hsup.
  { intros f x Hx Hne. unfold bkE, upd. destruct (decide (f = m)) as [->|]; [| done].
    rewrite Hbk in Hx. set_solver. }
  split.
  - done.
  - done.
  - intros f x Hx. destruct (Hsub f x Hx) as [Hx' Hne].
    destruct (P_data _ _ _ HP f x Hx') as (k' & v' & Hd & Hn).
    exists k', v'. rewrite Hdat, Enm. split; [done |].
    rewrite lookup_delete_ne; [done |]. intros <-. congruence.
  - intros k' x. rewrite Enm. intros Hx.
    apply lookup_delete_Some in Hx as [Hne Hx].
    destruct (P_nm _ _ _ HP k' x Hx) as (v' & c' & Hd & Hin).
    exists v', c'. rewrite Hdat. split; [done |]. apply Hsup; [done |].
    intros ->. congruence.
  - rewrite Ecs, Enm, (P_size _ _ _ HP).
    rewrite (map_size_delete_Some kv (nodeMap s)) by eauto.
    assert (base.size (nodeMap s) ≠ 0%nat).
    { intros E. apply map_size_empty_inv in E. rewrite E in Hnv.
      by rewrite lookup_empty in Hnv. }
    lia.
  - intros f Hf. apply (P_pos _ _ _ HP). intros E.
    destruct (bkE f) as [|x l] eqn:E'; [done |].
    destruct (Hsub f x) as [Hx _]; [rewrite E'; set_solver |].
    rewrite E in Hx. by apply elem_of_nil in Hx.
  - intros f. assert (StronglySorted (newer h (nodes s)) (bkE f)) as Hs.
    { unfold bkE, upd. destruct (decide (f = m)) as [->|]; [| apply (P_age _ _ _ HP)].
      pose proof (P_age _ _ _ HP m) as Hs. rewrite Hbk in Hs.
      by apply StronglySorted_app_1_l in Hs. }
    eapply StronglySorted_weaken; [exact Hs |].
    intros x y _ _. unfold newer.
    by rewrite (dat_kof _ _ x (Hdat x)), (dat_kof _ _ y (Hdat y)).
Qed.

(** Data-level part of the insertion: the fresh node [an] with key [k]
    enters the bucket of frequency 1 at the front. *)
Lemma Inv_insert h s bk k v an sF :
  Pre h s bk → nodeMap s !! k = None →
  (0 ≤ maxSize s → curSize s < maxSize s) →
  let bk2 := upd bk 1 (an :: bk 1) in
  heap_ok (nodes sF) (lists sF) (brk sF) →
  Buckets (nodes sF) (lists sF) (listMap sF) bk2 →
  nodeMap sF = <[k := an]> (nodeMap s) →
  curSize sF = curSize s + 1 → maxSize sF = maxSize s → minf sF = 1 →
  dat (nodes sF) an = Some (k, v, 1) →
  (∀ x, is_Some (nodes s !! x) → dat (nodes sF) x = dat (nodes s) x) →
  Inv (Put k v :: h) sF bk2.
Proof.
  intros HP Hk Hcap bk2 Hok HB Enm Ecs Ems Emf Hdn Hfr.
  assert (∀ f x, x ∈ bk f → dat (nodes sF) x = dat (nodes s) x) as Hfr'.
  { intros f x Hx. apply Hfr.
    destruct (P_data _ _ _ HP f x Hx) as (k' & v' & Hd & _).
    apply dat_lookup in Hd as (N & -> & _). eauto. }
  assert (∀ f x, x ∈ bk f → kof (nodes sF) x = kof (nodes s) x) as Hkof.
  { intros f x Hx. apply dat_kof. by eapply Hfr'. }
  assert (∀ f x, x ∈ bk f → kof (nodes s) x ≠ k) as Hkne.
  { intros f x Hx E.
    destruct (P_data _ _ _ HP f x Hx) as (k' & v' & Hd & Hn).
    rewrite (dat_kof_eq _ _ _ _ _ Hd) in E. congruence. }
  split.
  - done.
  - done.
  - intros f x. unfold bk2, upd. destruct (decide (f = 1)) as [->|Hf].
    + intros [->|Hx]%elem_of_cons.
      * exists k, v. rewrite Enm. by rewrite lookup_insert_eq.
      * destruct (P_data _ _ _ HP 1 x Hx) as (k' & v' & Hd & Hn).
        exists k', v'. rewrite Enm, (Hfr' 1) by done. split; [done |].
        rewrite lookup_insert_ne; [done | congruence].
    + intros Hx. destruct (P_data _ _ _ HP f x Hx) as (k' & v' & Hd & Hn).
      exists k', v'. rewrite Enm, (Hfr' f) by done. split; [done |].
      rewrite lookup_insert_ne; [done | congruence].
  - intros k' x. rewrite Enm, lookup_insert.
    destruct (decide (k = k')) as [<-|Hne].
    + intros [= <-]. exists v, 1. split; [done |]. unfold bk2.
      rewrite upd_eq. set_solver.
    + intros Hx. destruct (P_nm _ _ _ HP k' x Hx) as (v' & c' & Hd & Hin).
      exists v', c'. rewrite (Hfr' c') by done. split; [done |].
      unfold bk2, upd. destruct (decide (c' = 1)) as [->|]; [set_solver | done].
  - rewrite Ecs, Enm, (P_size _ _ _ HP), (map_size_insert_None k an _ Hk). lia.
  - intros _. rewrite Emf. unfold bk2, upd. split; [by rewrite decide_True |].
    intros f. destruct (decide (f = 1)) as [->|]; [done | apply (P_pos _ _ _ HP)].
  - intros f. unfold bk2, upd.
    destruct (decide (f = 1)) as [->|]; [done | apply (P_pos _ _ _ HP)].
  - rewrite Ecs, Ems. intros H. specialize (Hcap H). lia.
  - intros f. unfold bk2, upd. destruct (decide (f = 1)) as [->|Hf].
    + apply StronglySorted_cons. split.
      * apply Forall_forall. intros y Hy. unfold newer.
        rewrite (dat_kof_eq _ _ _ _ _ Hdn).
        change k with (okey (Put k v)) at 1. rewrite age_cons_eq.
        rewrite (Hkof 1 y Hy). rewrite age_cons_ne; [lia |].
        simpl. intros E. by eapply (Hkne 1 y).
      * eapply sorted_shift; [apply (P_age _ _ _ HP) | |].
        -- intros x Hx. by eapply Hkof.
        -- intros x Hx. simpl. by eapply Hkne.
    + eapply sorted_shift; [apply (P_age _ _ _ HP) | |].
      * intros x Hx. by eapply Hkof.
      * intros x Hx. simpl. by eapply Hkne.
Qed.

Lemma put_eq k value :
  put k value =
  (let! cap := gets maxSize in
   if decide (cap = 0) then ret tt else
   let! found := gets (λ s, nodeMap s !! k) in
   match found with
   | Some _ =>
       let! node := nodeMap_at k in
       wrNode node (with_val value) ;;;
       updateFreqList node
   | None =>
       let! cur := gets curSize in
       (if decide (cur = cap) then evict_block else ret tt) ;;;
       insert_block k value
   end).
Proof. reflexivity. Qed.

Lemma evict_spec h s bk :
  Inv h s bk → 0 < curSize s →
  ∃ sE l1 av kv vv,
    bk (minf s) = l1 ++ [av] ∧
    dat (nodes s) av = Some (kv, vv, minf s) ∧
    nodeMap s !! kv = Some av ∧
    evict_block s = Some (tt, sE) ∧
    Pre h sE (upd bk (minf s) l1) ∧
    nodeMap sE = delete kv (nodeMap s) ∧
    curSize sE = curSize s - 1 ∧ maxSize sE = maxSize s ∧ brk sE = brk s ∧
    (∀ x, dat (nodes sE) x = dat (nodes s) x).
Proof.
  intros HI Hpos. destruct (I_min _ _ _ HI Hpos) as [Hne _].
  pose proof (I_bk _ _ _ HI) as HB. pose proof HB as [H0 HL0 Hat Hsep Hnone].
  set (m := minf s) in *.
  assert (is_Some (last (bk m))) as [av Hlast] by by apply last_is_Some.
  apply last_Some in Hlast as [l1 Hbk].
  destruct (listMap s !! m) as [la|] eqn:Hla;
    [| specialize (Hnone m Hla); congruence].
  destruct (Hat m la Hla) as [L [HL Hsz Hc Hnd]].
  pose proof (chain_last _ _ _ _ Hc) as Hprev. rewrite Hbk, last_snoc in Hprev.
  simpl in Hprev.
  destruct (nodes s !! tail L) as [T|] eqn:HT;
    [| by unfold prv in Hprev; rewrite HT in Hprev].
  assert (prev T = av) as HpT by (unfold prv in Hprev; rewrite HT in Hprev; by injection Hprev).
  assert (av ∈ bk m) as Hav by (rewrite Hbk; set_solver).
  destruct (I_data _ _ _ HI m av Hav) as (kv & vv & Hdv & Hnv).
  destruct (dat_lookup _ _ _ _ _ Hdv) as (V & HV & Ekv & _ & _).
  set (s1 := set_nodeMap (delete (key V)) s).
  destruct (unlink_spec s1 (listMap s) bk m la l1 av [] HB Hla Hbk)
    as (nd' & L' & HL' & Hrun & _ & HB' & Hdat' & _ & _).
  change (lists s1) with (lists s) in *.
  assert (L' = L) as -> by congruence.
  rewrite app_nil_r in HB'.
  set (ls' := <[la := with_size (size L - 1) L]> (lists s)) in *.
  set (s2 := with_store nd' ls' (brk s1) s1) in *.
  set (sE := set_curSize (curSize s2 - 1) s2).
  exists sE, l1, av, kv, vv. split_and!; try done.
  - unfold evict_block. erewrite bind_eq; [| reflexivity]. cbv beta. fold m.
    mstep (listMap_at_eq s m la Hla). mstep (rdList_eq s la L HL0 HL).
    mstep (rdNode_eq s (tail L) T H0 HT). rewrite HpT.
    mstep (rdNode_eq s av V H0 HV).
    erewrite bind_eq; [| reflexivity]. cbv beta. fold s1.
    mstep (rdList_eq s1 la L HL0 HL). mstep (rdNode_eq s1 (tail L) T H0 HT).
    rewrite HpT. mstep Hrun. reflexivity.
  - eapply (Pre_evict h s bk m l1 av kv vv sE); try done.
    + by apply Inv_Pre.
    + subst sE. simpl. eapply heap_ok_dat; [apply (I_heap _ _ _ HI) | exact Hdat' | exact HL].
    + subst sE s1. simpl. by rewrite Ekv.
  - subst sE s1. simpl. by rewrite Ekv.
Qed.

Lemma insert_spec h s bk k v :
  Pre h s bk → nodeMap s !! k = None →
  (0 ≤ maxSize s → curSize s < maxSize s) →
  ∃ sF,
    insert_block k v s = Some (tt, sF) ∧
    Inv (Put k v :: h) sF (upd bk 1 (brk s :: bk 1)) ∧
    nodeMap sF = <[k := brk s]> (nodeMap s) ∧
    curSize sF = curSize s + 1 ∧ maxSize sF = maxSize s ∧ minf sF = 1 ∧
    dat (nodes sF) (brk s) = Some (k, v, 1) ∧
    (∀ x, is_Some (nodes s !! x) → dat (nodes sF) x = dat (nodes s) x).
Proof.
  intros HP Hk Hcap.
  pose proof (P_bk _ _ _ HP) as HB. pose proof HB as [H0 HL0 Hat Hsep Hnone].
  pose proof (P_heap _ _ _ HP) as Hok. pose proof Hok as (P1 & P2 & P3).
  set (an := brk s) in *.
  destruct (heap_ok_fresh _ _ _ an Hok) as [Han _]; [unfold an; lia |].
  assert (an ≠ NULL) as Han0 by (unfold an, NULL; lia).
  set (s1 := set_minf 1 s).
  set (nd2 := <[an := mkNode k v 1 NULL NULL]> (nodes s)).
  set (s2 := with_store nd2 (lists s) (S an) s1).
  assert (∀ x, is_Some (nodes s !! x) → nd2 !! x = nodes s !! x) as Hfr2.
  { intros x [N HN]. subst nd2. rewrite lookup_insert_ne; [done | congruence]. }
  assert (Buckets nd2 (lists s) (listMap s) bk) as HB2.
  { eapply Buckets_frame; [exact HB | subst nd2; by rewrite lookup_insert_ne |].
    intros x Hx. unfold nxt, prv. by rewrite (Hfr2 x Hx). }
  assert (heap_ok nd2 (lists s) (S an)) as Hok2.
  { split_and!; [| | lia].
    - intros p. subst nd2. rewrite lookup_insert.
      destruct (decide (an = p)) as [<-|]; [lia |]. intros Hp%P1. unfold an. lia.
    - intros p Hp%P2. unfold an. lia. }
  assert (∀ f' la' L', listMap s !! f' = Some la' → lists s !! la' = Some L' →
            an ∉ cells L' (bk f')) as Hfresh.
  { intros f' la' L' Hf' HL' Hin. destruct (Hat f' la' Hf') as [L1 HbL].
    assert (L1 = L') as -> by (destruct HbL; congruence).
    destruct (bucket_alloc _ _ _ _ _ an HbL Hin) as [? ?]. congruence. }
  assert (nd2 !! an = Some (mkNode k v 1 NULL NULL)) as Han2
    by (subst nd2; by rewrite lookup_insert_eq).
  destruct (listMap s !! 1) as [lb|] eqn:Hlb.
  - destruct (link_spec s2 (listMap s) bk 1 lb an _ HB2 Hlb Han2 Hfresh)
      as (nd4 & Lb & HLb & Hrun4 & HB4 & Hdat4).
    set (s4 := with_store nd4 (<[lb := with_size (size Lb + 1) Lb]> (lists s2)) (brk s2) s2) in *.
    set (sF := set_listMap (insert 1 lb)
                 (set_nodeMap (insert k an) (set_curSize (curSize s4 + 1) s4))).
    exists sF. split_and!; try done.
    + unfold insert_block. erewrite bind_eq; [| reflexivity]. cbv beta.
      mstep (new_Node_spec s1 k v). erewrite bind_eq; [| reflexivity]. cbv beta.
      change (minf (with_store _ _ _ s1)) with 1.
      erewrite bind_eq; [| reflexivity]. cbv beta.
      change (listMap (with_store _ _ _ s1)) with (listMap s). rewrite Hlb.
      erewrite bind_eq; [| apply (listMap_at_eq _ 1 lb); exact Hlb]. cbv beta.
      mstep Hrun4. reflexivity.
    + eapply (Inv_insert h s bk k v an sF); try done.
      * subst sF. simpl. eapply heap_ok_dat; [exact Hok2 | exact Hdat4 | exact HLb].
      * subst sF. simpl. by rewrite (insert_id _ _ _ Hlb).
      * subst sF. simpl. rewrite Hdat4. unfold dat. simpl. by rewrite Han2.
      * intros x Hx. subst sF. simpl. rewrite Hdat4. unfold dat. simpl.
        by rewrite (Hfr2 x Hx).
    + subst sF. simpl. rewrite Hdat4. unfold dat. simpl. by rewrite Han2.
    + intros x Hx. subst sF. simpl. rewrite Hdat4. unfold dat. simpl.
      by rewrite (Hfr2 x Hx).
  - destruct (new_List_spec s2 Hok2) as (nd' & Hrun3 & Hh' & Ht' & Hfr').
    change (brk s2) with (S an) in *. change (nodes s2) with nd2 in *.
    change (lists s2) with (lists s) in *.
    set (hd := S an) in *. set (tl := S (S an)) in *. set (lb := S (S (S an))) in *.
    set (ls' := <[lb := mkList hd tl 0]> (lists s)) in *.
    set (lm' := <[1 := lb]> (listMap s)).
    assert (Buckets nd' ls' lm' bk) as HB'.
    { eapply (Buckets_new nd2 nd' (lists s) (listMap s) bk (S an)); eauto. }
    assert (nd' !! an = Some (mkNode k v 1 NULL NULL)) as Han'.
    { rewrite Hfr'; [done | unfold hd; lia | unfold tl; lia]. }
    set (s3 := with_store nd' ls' (S lb) s2) in *.
    assert (bk 1 = []) as Ebk by by apply Hnone.
    destruct (link_spec s3 lm' bk 1 lb an (mkNode k v 1 NULL NULL) HB') as (nd4 & Lb & HLb & Hrun4 & HB4 & Hdat4).
    { subst lm'. by rewrite lookup_insert_eq. }
    { exact Han'. }
    { intros f' la' L'. subst lm'. rewrite lookup_insert.
      destruct (decide (1 = f')) as [<-|Hne].
      - intros [= <-]. change (lists s3) with ls'. subst ls'.
        rewrite lookup_insert_eq. intros [= <-]. rewrite Ebk.
        unfold cells. simpl. intros Hin.
        apply elem_of_cons in Hin as [E|Hin]; [unfold hd in E; lia |].
        apply list_elem_of_singleton in Hin. unfold tl in Hin; lia.
      - intros Hf'. change (lists s3) with ls'. subst ls'.
        destruct (Hat f' la' Hf') as [L1 [HL1 _ _ _]].
        assert (la' ≠ lb).
        { intros ->. destruct (heap_ok_fresh _ _ _ lb Hok) as [_ E]; [unfold lb, an; lia |].
          congruence. }
        rewrite lookup_insert_ne by done. by apply Hfresh. }
    set (s4 := with_store nd4 (<[lb := with_size (size Lb + 1) Lb]> (lists s3)) (brk s3) s3) in *.
    set (sF := set_listMap (insert 1 lb)
                 (set_nodeMap (insert k an) (set_curSize (curSize s4 + 1) s4))).
    assert (∀ x, is_Some (nodes s !! x) → dat nd4 x = dat (nodes s) x) as HfrF.
    { intros x Hx. rewrite Hdat4. unfold dat. simpl.
      pose proof (P1 x Hx). rewrite Hfr'; [| unfold hd, an; lia | unfold tl, an; lia].
      by rewrite (Hfr2 x Hx). }
    assert (dat nd4 an = Some (k, v, 1)) as HdaF.
    { rewrite Hdat4. unfold dat. simpl. by rewrite Han'. }
    exists sF. split_and!; try done.
    + unfold insert_block. erewrite bind_eq; [| reflexivity]. cbv beta.
      mstep (new_Node_spec s1 k v). erewrite bind_eq; [| reflexivity]. cbv beta.
      change (minf (with_store _ _ _ s1)) with 1.
      erewrite bind_eq; [| reflexivity]. cbv beta.
      change (listMap (with_store _ _ _ s1)) with (listMap s). rewrite Hlb.
      mstep Hrun3. mstep Hrun4. reflexivity.
    + eapply (Inv_insert h s bk k v an sF); try done.
      subst sF. simpl. eapply heap_ok_dat; [| exact Hdat4 | exact HLb].
      split_and!; [| | lia].
      * intros p Hp. destruct (decide (p = hd)) as [->|Hp1]; [unfold hd, lb; lia |].
        destruct (decide (p = tl)) as [->|Hp2]; [unfold tl, lb; lia |].
        change (nodes s3) with nd' in Hp.
        rewrite Hfr' in Hp by done. destruct Hok2 as (Q1 & _). apply Q1 in Hp.
        unfold lb. lia.
      * intros p. change (lists s3) with ls'. subst ls'. rewrite lookup_insert.
        destruct (decide (lb = p)) as [<-|]; [lia |].
        intros Hp. apply P2 in Hp. unfold lb, an. lia.
Qed.

(** ** The public operations *)

Lemma dat_with_val nd p v N x :
  nd !! p = Some N →
  dat (<[p := with_val v N]> nd) x
  = if decide (p = x) then Some (key N, v, count N) else dat nd x.
Proof. intros H. unfold dat. rewrite lookup_insert. by case_decide. Qed.

Lemma kof_with_val nd p v N x :
  nd !! p = Some N → kof (<[p := with_val v N]> nd) x = kof nd x.
Proof.
  intros H. unfold kof. rewrite lookup_insert.
  destruct (decide (p = x)) as [<-|]; [by rewrite H | done].
Qed.

(** Overwriting the value of a stored node keeps the invariant. *)
Lemma Inv_with_val h s bk a N v :
  Inv h s bk → nodes s !! a = Some N →
  Inv h (set_nodes (insert a (with_val v N)) s) bk.
Proof.
  intros HI HN. split; simpl.
  - eapply heap_ok_insert; [apply (I_heap _ _ _ HI) | exact HN].
  - eapply Buckets_links; [apply (I_bk _ _ _ HI) | |]; intros x.
    + by apply nxt_with_val.
    + by apply prv_with_val.
  - intros f x Hx. destruct (I_data _ _ _ HI f x Hx) as (k' & v' & Hd & Hn).
    rewrite (dat_with_val _ _ _ _ _ HN). destruct (decide (a = x)) as [<-|].
    + destruct (dat_lookup _ _ _ _ _ Hd) as (N' & HN' & <- & _ & <-).
      assert (N' = N) as -> by congruence. eauto.
    + eauto.
  - intros k' x Hx. destruct (I_nm _ _ _ HI k' x Hx) as (v' & c' & Hd & Hin).
    rewrite (dat_with_val _ _ _ _ _ HN). destruct (decide (a = x)) as [<-|].
    + destruct (dat_lookup _ _ _ _ _ Hd) as (N' & HN' & <- & _ & <-).
      assert (N' = N) as -> by congruence. eauto.
    + eauto.
  - apply (I_size _ _ _ HI).
  - apply (I_min _ _ _ HI).
  - apply (I_pos _ _ _ HI).
  - apply (I_cap _ _ _ HI).
  - intros f. eapply StronglySorted_weaken; [apply (I_age _ _ _ HI f) |].
    intros x y _ _. unfold newer. by rewrite !(kof_with_val _ _ _ _ _ HN).
Qed.

(** A call that changes nothing, on a key the cache does not hold. *)
Lemma Inv_miss h s bk o :
  Inv h s bk → nodeMap s !! okey o = None → Inv (o :: h) s bk.
Proof.
  intros HI Hk. destruct HI as [Ih Ib Id In Is Im Ip Ic Ia]. split; try done.
  intros f. eapply sorted_shift; [apply Ia | done |].
  intros x Hx E. destruct (Id f x Hx) as (k' & v' & Hd & Hn).
  rewrite (dat_kof_eq _ _ _ _ _ Hd) in E. congruence.
Qed.

Lemma get_miss s k : nodeMap s !! k = None → get k s = Some (-1, s).
Proof.
  intros Hk. unfold get. erewrite bind_eq; [| reflexivity]. cbv beta.
  by rewrite Hk.
Qed.

Lemma put_zero s k v : maxSize s = 0 → put k v s = Some (tt, s).
Proof.
  intros H0. unfold put. erewrite bind_eq; [| reflexivity]. cbv beta.
  by rewrite decide_True.
Qed.

Lemma get_hit h s bk k a :
  Inv h s bk → nodeMap s !! k = Some a →
  ∃ s' v c l1 l2,
    dat (nodes s) a = Some (k, v, c) ∧ bk c = l1 ++ a :: l2 ∧
    get k s = Some (v, s') ∧
    Inv (Get k :: h) s' (upd (upd bk c (l1 ++ l2)) (c + 1) (a :: bk (c + 1))) ∧
    nodeMap s' = nodeMap s ∧ curSize s' = curSize s ∧ maxSize s' = maxSize s ∧
    dat (nodes s') a = Some (k, v, c + 1) ∧
    (∀ x, x ≠ a → is_Some (nodes s !! x) → dat (nodes s') x = dat (nodes s) x).
Proof.
  intros HI Hk.
  destruct (updateFreqList_spec h s bk (Get k) k a HI eq_refl Hk)
    as (s' & v & c & l1 & l2 & Hd & Hbk & Hrun & HI' & Hrest).
  destruct (dat_lookup _ _ _ _ _ Hd) as (N & HN & _ & Ev & _).
  exists s', v, c, l1, l2. split_and!; try done; [| apply Hrest..].
  unfold get. erewrite bind_eq; [| reflexivity]. cbv beta. rewrite Hk.
  mstep (nodeMap_at_eq s k a Hk).
  mstep (rdNode_eq s a N (B_null _ _ _ _ (I_bk _ _ _ HI)) HN).
  mstep Hrun. by rewrite Ev.
Qed.

Lemma put_hit h s bk k v' a :
  Inv h s bk → maxSize s ≠ 0 → nodeMap s !! k = Some a →
  ∃ s' v c l1 l2,
    dat (nodes s) a = Some (k, v, c) ∧ bk c = l1 ++ a :: l2 ∧
    put k v' s = Some (tt, s') ∧
    Inv (Put k v' :: h) s' (upd (upd bk c (l1 ++ l2)) (c + 1) (a :: bk (c + 1))) ∧
    nodeMap s' = nodeMap s ∧ curSize s' = curSize s ∧ maxSize s' = maxSize s ∧
    dat (nodes s') a = Some (k, v', c + 1) ∧
    (∀ x, x ≠ a → is_Some (nodes s !! x) → dat (nodes s') x = dat (nodes s) x).
Proof.
  intros HI Hcap Hk.
  destruct (I_nm _ _ _ HI k a Hk) as (v & c & Hd & Hin).
  destruct (dat_lookup _ _ _ _ _ Hd) as (N & HN & Ek & Ev & Ec).
  set (s1 := set_nodes (insert a (with_val v' N)) s).
  pose proof (Inv_with_val h s bk a N v' HI HN) as HI1. fold s1 in HI1.
  destruct (updateFreqList_spec h s1 bk (Put k v') k a HI1 eq_refl Hk)
    as (s' & v1 & c1 & l1 & l2 & Hd1 & Hbk & Hrun & HI' & E1 & E2 & E3 & Hd' & Hfr).
  assert (dat (nodes s1) a = Some (k, v', c)) as Hd1'.
  { subst s1. simpl. rewrite (dat_with_val _ _ _ _ _ HN), decide_True by done.
    by rewrite Ek, Ec. }
  assert (v1 = v' ∧ c1 = c) as [-> ->] by (split; congruence).
  exists s', v, c, l1, l2. split_and!; try done.
  - rewrite put_eq. erewrite bind_eq; [| reflexivity]. cbv beta.
    rewrite decide_False by done. erewrite bind_eq; [| reflexivity]. cbv beta.
    rewrite Hk. mstep (nodeMap_at_eq s k a Hk).
    mstep (wrNode_eq s a N (with_val v') (B_null _ _ _ _ (I_bk _ _ _ HI)) HN).
    exact Hrun.
  - intros x Hx Hal. rewrite Hfr; [| done |].
    + subst s1. simpl. rewrite (dat_with_val _ _ _ _ _ HN). by rewrite decide_False.
    + subst s1. simpl. rewrite lookup_insert_ne; done.
Qed.

Lemma put_evict h s bk k v :
  Inv h s bk → maxSize s ≠ 0 → nodeMap s !! k = None → curSize s = maxSize s →
  ∃ sE s' l1 av kv vv,
    bk (minf s) = l1 ++ [av] ∧
    dat (nodes s) av = Some (kv, vv, minf s) ∧
    nodeMap s !! kv = Some av ∧
    evict_block s = Some (tt, sE) ∧
    nodeMap sE = delete kv (nodeMap s) ∧ curSize sE = curSize s - 1 ∧
    insert_block k v sE = Some (tt, s') ∧
    put k v s = Some (tt, s') ∧
    Inv (Put k v :: h) s'
        (upd (upd bk (minf s) l1) 1 (brk s :: upd bk (minf s) l1 1)) ∧
    nodeMap s' = <[k := brk s]> (delete kv (nodeMap s)) ∧
    curSize s' = curSize s ∧ maxSize s' = maxSize s ∧ minf s' = 1 ∧
    dat (nodes s') (brk s) = Some (k, v, 1) ∧
    (∀ x, is_Some (nodes s !! x) → dat (nodes s') x = dat (nodes s) x).
Proof.
  intros HI Hcap Hk Hfull.
  assert (0 < curSize s) as Hpos.
  { pose proof (I_size _ _ _ HI). lia. }
  destruct (evict_spec h s bk HI Hpos)
    as (sE & l1 & av & kv & vv & Hbk & Hdv & Hnv & HrunE & HP & EnmE & EcsE & EmsE & EbrE & HdatE).
  destruct (insert_spec h sE (upd bk (minf s) l1) k v HP)
    as (s' & HrunI & HI' & Enm & Ecs & Ems & Emf & Hdn & Hfr).
  { rewrite EnmE. destruct (decide (kv = k)) as [->|]; [congruence |].
    by rewrite lookup_delete_ne. }
  { lia. }
  rewrite EbrE in *.
  exists sE, s', l1, av, kv, vv. split_and!; try done.
  - rewrite put_eq. erewrite bind_eq; [| reflexivity]. cbv beta.
    rewrite decide_False by done. erewrite bind_eq; [| reflexivity]. cbv beta.
    rewrite Hk. erewrite bind_eq; [| reflexivity]. cbv beta.
    rewrite decide_True by done. mstep HrunE. exact HrunI.
  - by rewrite Enm, EnmE.
  - lia.
  - congruence.
  - intros x Hx. rewrite Hfr; [apply HdatE |].
    by apply (dat_is_Some _ _ _ (HdatE x)).
Qed.

Lemma put_fresh h s bk k v :
  Inv h s bk → maxSize s ≠ 0 → nodeMap s !! k = None → curSize s ≠ maxSize s →
  ∃ s',
    put k v s = Some (tt, s') ∧
    Inv (Put k v :: h) s' (upd bk 1 (brk s :: bk 1)) ∧
    nodeMap s' = <[k := brk s]> (nodeMap s) ∧
    curSize s' = curSize s + 1 ∧ maxSize s' = maxSize s ∧ minf s' = 1 ∧
    dat (nodes s') (brk s) = Some (k, v, 1) ∧
    (∀ x, is_Some (nodes s !! x) → dat (nodes s') x = dat (nodes s) x).
Proof.
  intros HI Hcap Hk Hroom.
  destruct (insert_spec h s bk k v (Inv_Pre _ _ _ HI) Hk)
    as (s' & HrunI & HI' & Hrest).
  { intros H. pose proof (I_cap _ _ _ HI H). lia. }
  exists s'. split_and!; try done; [| apply Hrest..].
  rewrite put_eq. erewrite bind_eq; [| reflexivity]. cbv beta.
  rewrite decide_False by done. erewrite bind_eq; [| reflexivity]. cbv beta.
  rewrite Hk. erewrite bind_eq; [| reflexivity]. cbv beta.
  rewrite decide_False by done. erewrite bind_eq; [| reflexivity]. cbv beta.
  exact HrunI.
Qed.

(** With capacity 0 nothing is ever stored. *)
Lemma Inv_zero h s bk k :
  Inv h s bk → maxSize s = 0 → nodeMap s !! k = None.
Proof.
  intros HI H0. pose proof (I_cap _ _ _ HI) as Hc. pose proof (I_size _ _ _ HI) as Hs.
  assert (base.size (nodeMap s) = 0%nat) as E by lia.
  apply map_size_empty_inv in E. rewrite E. apply lookup_empty.
Qed.

(** ** Reachable states *)

(** Every call on a state satisfying the invariant returns, and the
    invariant holds again. *)
Lemma exec_Inv h s bk o :
  Inv h s bk →
  ∃ r s' bk', exec o s = Some (r, s') ∧ Inv (o :: h) s' bk' ∧ maxSize s' = maxSize s.
Proof.
  intros HI. destruct o as [k|k v]; simpl.
  - destruct (nodeMap s !! k) as [a|] eqn:Hk.
    + destruct (get_hit h s bk k a HI Hk)
        as (s' & v & c & l1 & l2 & _ & _ & Hrun & HI' & _ & _ & Ems & _).
      eexists _, s', _. split_and!; [| exact HI' | exact Ems].
      by mstep Hrun.
    + eexists _, s, bk. split_and!; [| by apply Inv_miss | done].
      by mstep (get_miss s k Hk).
  - destruct (decide (maxSize s = 0)) as [H0|Hcap].
    { eexists _, s, bk. split_and!; [| apply Inv_miss; [done | by eapply Inv_zero] | done].
      by mstep (put_zero s k v H0). }
    destruct (nodeMap s !! k) as [a|] eqn:Hk.
    + destruct (put_hit h s bk k v a HI Hcap Hk)
        as (s' & v0 & c & l1 & l2 & _ & _ & Hrun & HI' & _ & _ & Ems & _).
      eexists _, s', _. split_and!; [| exact HI' | exact Ems]. by mstep Hrun.
    + destruct (decide (curSize s = maxSize s)) as [Hfull|Hroom].
      * destruct (put_evict h s bk k v HI Hcap Hk Hfull)
          as (sE & s' & l1 & av & kv & vv & _ & _ & _ & _ & _ & _ & _ & Hrun & HI' & _ & _ & Ems & _).
        eexists _, s', _. split_and!; [| exact HI' | exact Ems]. by mstep Hrun.
      * destruct (put_fresh h s bk k v HI Hcap Hk Hroom)
          as (s' & Hrun & HI' & _ & _ & Ems & _).
        eexists _, s', _. split_and!; [| exact HI' | exact Ems]. by mstep Hrun.
Qed.

Lemma reach_Inv cap h s : reach cap h s → ∃ bk, Inv h s bk ∧ maxSize s = cap.
Proof.
  induction 1 as [|h s o r s' Hr [bk [HI Hc]] Hex].
  - exists (λ _, []). split; [apply Inv_init | done].
  - destruct (exec_Inv h s bk o HI) as (r' & s'' & bk' & Hex' & HI' & Ems).
    rewrite Hex in Hex'. injection Hex' as <- <-. exists bk'. split; [done | congruence].
Qed.

(** The invariant with the contents read off the store. *)
Lemma reach_Inv_bucket cap h s :
  reach cap h s → Inv h s (bucket s) ∧ maxSize s = cap.
Proof.
  intros Hr. destruct (reach_Inv cap h s Hr) as (bk & HI & Hc). split; [| done].
  assert (∀ f, bucket s f = bk f) as E by (intros f; by eapply Inv_bucket).
  destruct HI as [Ih Ib Id In Is Im Ip Ic Ia]. split; try done.
  - destruct Ib as [B1 B2 B3 B4 B5]. split; try done.
    + intros f la Hf. rewrite E. by apply B3.
    + intros f f' la la' L L' x. rewrite !E. by apply B4.
    + intros f. rewrite E. by apply B5.
  - intros f. rewrite E. apply Id.
  - intros k a Hk. destruct (In k a Hk) as (v & c & Hd & Hin). exists v, c.
    by rewrite E.
  - intros Hp. destruct (Im Hp) as [H1 H2]. rewrite E. split; [done |].
    intros f. rewrite E. apply H2.
  - intros f. rewrite E. apply Ip.
  - intros f. rewrite E. apply Ia.
Qed.

Lemma exec_effect h s bk o :
  Inv h s bk →
  ∃ r s' bk',
    exec o s = Some (r, s') ∧ Inv (o :: h) s' bk' ∧ maxSize s' = maxSize s ∧
    effect s o r s'.
Proof.
  intros HI. destruct o as [k|k v]; simpl.
  - destruct (nodeMap s !! k) as [a|] eqn:Hk.
    + destruct (get_hit h s bk k a HI Hk)
        as (s' & v & c & l1 & l2 & Hd & _ & Hrun & HI' & Enm & Ecs & Ems & Hd' & Hfr).
      eexists _, s', _. split_and!; [by mstep Hrun | exact HI' | exact Ems |].
      by eapply (eff_hit _ (Get k) _ _ a v c).
    + eexists _, s, bk.
      split_and!; [by mstep (get_miss s k Hk) | by apply Inv_miss | done |].
      by apply eff_noop.
  - destruct (decide (maxSize s = 0)) as [H0|Hcap].
    { pose proof (Inv_zero h s bk k HI H0) as Hk. eexists _, s, bk.
      split_and!; [by mstep (put_zero s k v H0) | by apply Inv_miss | done |].
      by apply eff_noop. }
    destruct (nodeMap s !! k) as [a|] eqn:Hk.
    + destruct (put_hit h s bk k v a HI Hcap Hk)
        as (s' & v0 & c & l1 & l2 & Hd & _ & Hrun & HI' & Enm & Ecs & Ems & Hd' & Hfr).
      eexists _, s', _. split_and!; [by mstep Hrun | exact HI' | exact Ems |].
      by eapply (eff_hit _ (Put k v) _ _ a v0 c).
    + destruct (decide (curSize s = maxSize s)) as [Hfull|Hroom].
      * destruct (put_evict h s bk k v HI Hcap Hk Hfull)
          as (sE & s' & l1 & av & kv & vv & _ & Hdv & Hnv & _ & _ & _ & _ & Hrun
              & HI' & Enm & Ecs & Ems & _ & Hdn & Hfr).
        eexists _, s', _. split_and!; [by mstep Hrun | exact HI' | exact Ems |].
        by eapply (eff_evict _ _ _ _ k v kv av vv).
      * destruct (put_fresh h s bk k v HI Hcap Hk Hroom)
          as (s' & Hrun & HI' & Enm & Ecs & Ems & _ & Hdn & Hfr).
        eexists _, s', _. split_and!; [by mstep Hrun | exact HI' | exact Ems |].
        by eapply (eff_fresh _ _ _ _ k v).
Qed.

(** Every call made on a reachable state returns. *)
Lemma reach_exec cap h s o :
  reach cap h s →
  ∃ r s', exec o s = Some (r, s') ∧ reach cap (o :: h) s' ∧ effect s o r s'.
Proof.
  intros Hr. destruct (reach_Inv cap h s Hr) as (bk & HI & _).
  destruct (exec_effect h s bk o HI) as (r & s' & _ & Hex & _ & _ & He).
  exists r, s'. split_and!; [done | by eapply reach_step | done].
Qed.

(** Every sequence of calls made on a reachable state runs to its end. *)
Lemma reach_run cap ops : ∀ h s,
  reach cap h s →
  ∃ rs s', run ops s = Some (rs, s') ∧ reach cap (rev ops ++ h) s'.
Proof.
  induction ops as [|o ops IH]; intros h s Hr; simpl.
  - by exists [], s.
  - destruct (reach_exec cap h s o Hr) as (r & s1 & Hex & Hr1 & _).
    destruct (IH (o :: h) s1 Hr1) as (rs & s' & Hrun & Hr').
    exists (r :: rs), s'. rewrite Hex, Hrun. split; [done |].
    by rewrite <- app_assoc.
Qed.

Lemma run_reach cap ops h s rs s' :
  reach cap h s → run ops s = Some (rs, s') → reach cap (rev ops ++ h) s'.
Proof.
  intros Hr Hrun. destruct (reach_run cap ops h s Hr) as (rs' & s'' & Hrun' & Hr').
  congruence.
Qed.

Lemma run_cons o ops s rs s' :
  run (o :: ops) s = Some (rs, s') →
  ∃ r s1 rs', exec o s = Some (r, s1) ∧ run ops s1 = Some (rs', s') ∧ rs = r :: rs'.
Proof.
  simpl. destruct (exec o s) as [[r s1]|]; [| done].
  destruct (run ops s1) as [[rs' s'']|] eqn:E; [| done].
  intros [= <- <-]. by exists r, s1, rs'.
Qed.

Lemma reach_after cap ops : reach cap (rev ops) (after cap ops).
Proof.
  destruct (reach_run cap ops [] (LFUCache cap) (reach_init cap))
    as (rs & s & Hrun & Hr).
  unfold after. rewrite Hrun. by rewrite app_nil_r in Hr.
Qed.

(** Facts about reachable states used by the claims. *)
Lemma reach_size cap h s : reach cap h s → 0 ≤ curSize s ∧ (0 ≤ cap → curSize s ≤ cap).
Proof.
  intros Hr. destruct (reach_Inv cap h s Hr) as (bk & HI & <-).
  pose proof (I_size _ _ _ HI). pose proof (I_cap _ _ _ HI). lia.
Qed.

Lemma reach_entry cap h s k a :
  reach cap h s → nodeMap s !! k = Some a →
  ∃ N, nodes s !! a = Some N ∧ key N = k ∧ (a < brk s)%nat.
Proof.
  intros Hr Hk. destruct (reach_Inv cap h s Hr) as (bk & HI & _).
  destruct (I_nm _ _ _ HI k a Hk) as (v & c & Hd & _).
  destruct (dat_lookup _ _ _ _ _ Hd) as (N & HN & Ek & _).
  exists N. split_and!; [done.. |].
  destruct (I_heap _ _ _ HI) as (P1 & _). assert (0 < a < brk s)%nat by eauto. lia.
Qed.

(** The tail end of the bucket of minimal frequency of a non-empty cache,
    as [put] finds it through [listMap[minf]] and [tail->prev]. *)
Lemma min_bucket_tail h s bk :
  Inv h s bk → 0 < curSize s →
  ∃ la L T l1 av kv vv,
    listMap s !! minf s = Some la ∧ lists s !! la = Some L ∧
    size L = Z.of_nat (length (bk (minf s))) ∧
    bk (minf s) = l1 ++ [av] ∧
    nodes s !! tail L = Some T ∧ prev T = av ∧
    av ≠ head L ∧ av ≠ tail L ∧
    dat (nodes s) av = Some (kv, vv, minf s) ∧ nodeMap s !! kv = Some av.
Proof.
  intros HI Hpos. destruct (I_min _ _ _ HI Hpos) as [Hne _].
  destruct (I_bk _ _ _ HI) as [H0 HL0 Hat Hsep Hnone].
  assert (is_Some (last (bk (minf s)))) as [av Hlast] by by apply last_is_Some.
  apply last_Some in Hlast as [l1 Hbk].
  destruct (listMap s !! minf s) as [la|] eqn:Hla;
    [| specialize (Hnone _ Hla); congruence].
  destruct (Hat _ la Hla) as [L [HL Hsz Hc Hnd]].
  pose proof (chain_last _ _ _ _ Hc) as Hprev. rewrite Hbk, last_snoc in Hprev.
  simpl in Hprev.
  destruct (nodes s !! tail L) as [T|] eqn:HT;
    [| by unfold prv in Hprev; rewrite HT in Hprev].
  assert (prev T = av) as HpT
    by (unfold prv in Hprev; rewrite HT in Hprev; by injection Hprev).
  assert (av ∈ bk (minf s)) as Hav by (rewrite Hbk; set_solver).
  destruct (I_data _ _ _ HI _ av Hav) as (kv & vv & Hdv & Hnv).
  unfold cells in Hnd. apply NoDup_cons in Hnd as [Hh Hnd].
  apply NoDup_app in Hnd as (_ & Ht & _).
  exists la, L, T, l1, av, kv, vv. split_and!; try done.
  - intros ->. apply Hh. set_solver.
  - intros ->. apply (Ht (tail L) Hav). set_solver.
Qed.

Lemma exec_get k s r s' :
  exec (Get k) s = Some (r, s') → ∃ z, get k s = Some (z, s') ∧ r = Some z.
Proof.
  simpl. unfold bind, ret. destruct (get k s) as [[z s1]|]; [| done].
  intros [= <- <-]. by exists z.
Qed.

Lemma exec_put k v s r s' :
  exec (Put k v) s = Some (r, s') → put k v s = Some (tt, s') ∧ r = None.
Proof.
  simpl. unfold bind, ret. destruct (put k v s) as [[[] s1]|]; [| done].
  by intros [= <- <-].
Qed.

(** ** Frame properties of the code *)

Section frame.
Context (R : state → state → Prop) `{!FrameRel R}.

Lemma keeps_ret {A} (a : A) : keeps R (ret a).
Proof. intros s a' s' [= <- <-]. apply fr_refl. Qed.

Lemma keeps_bind {A B} (m : M A) (k : A → M B) :
  keeps R m → (∀ a, keeps R (k a)) → keeps R (bind m k).
Proof.
  intros Hm Hk s b s'. unfold bind. destruct (m s) as [[a s1]|] eqn:E; [| done].
  intros Hb. eapply fr_trans; [by eapply Hm | by eapply Hk].
Qed.

Lemma keeps_gets {A} (f : state → A) : keeps R (gets f).
Proof. intros s a s' [= <- <-]. apply fr_refl. Qed.

Lemma keeps_modify (f : state → state) :
  (∀ s, R s (f s)) → keeps R (modify f).
Proof. intros Hf s a s' [= <- <-]. apply Hf. Qed.

Lemma keeps_rdNode p : keeps R (rdNode p).
Proof.
  intros s a s'. unfold rdNode. case_decide; [done |].
  destruct (nodes s !! p); [| done]. intros [= <- <-]. apply fr_refl.
Qed.

Lemma keeps_wrNode p f : keeps R (wrNode p f).
Proof.
  intros s a s'. unfold wrNode. case_decide; [done |].
  destruct (nodes s !! p); [| done]. intros [= <- <-]. apply fr_nodes.
Qed.

Lemma keeps_rdList p : keeps R (rdList p).
Proof.
  intros s a s'. unfold rdList. case_decide; [done |].
  destruct (lists s !! p); [| done]. intros [= <- <-]. apply fr_refl.
Qed.

Lemma keeps_wrList p f : keeps R (wrList p f).
Proof.
  intros s a s'. unfold wrList. case_decide; [done |].
  destruct (lists s !! p); [| done]. intros [= <- <-]. apply fr_lists.
Qed.

Lemma keeps_new_Node k v : keeps R (new_Node k v).
Proof.
  intros s a s' [= <- <-]. eapply fr_trans; [apply fr_nodes | apply fr_brk].
Qed.

Lemma keeps_alloc_List h t :
  keeps R (λ s, Some (brk s, set_brk (S (brk s))
                               (set_lists (insert (brk s) (mkList h t 0)) s))).
Proof.
  intros s a s' [= <- <-]. eapply fr_trans; [apply fr_lists | apply fr_brk].
Qed.

Lemma keeps_listMap_at f : keeps R (listMap_at f).
Proof.
  intros s a s'. unfold listMap_at. destruct (listMap s !! f) eqn:E.
  - intros [= <- <-]. apply fr_refl.
  - intros [= <- <-]. apply fr_listMap.
Qed.

Lemma keeps_new_List : keeps R new_List.
Proof.
  unfold new_List.
  repeat first [apply keeps_bind; [| intros ?] | apply keeps_new_Node
               | apply keeps_wrNode | apply keeps_alloc_List].
Qed.

Lemma keeps_addNode l a : keeps R (addNode l a).
Proof.
  unfold addNode.
  repeat first [apply keeps_bind; [| intros ?] | apply keeps_rdList
               | apply keeps_rdNode | apply keeps_wrNode | apply keeps_wrList].
Qed.

Lemma keeps_delNode l a : keeps R (delNode l a).
Proof.
  unfold delNode.
  repeat first [apply keeps_bind; [| intros ?] | apply keeps_rdNode
               | apply keeps_wrNode | apply keeps_wrList].
Qed.

Lemma keeps_updateFreqList a : keeps R (updateFreqList a).
Proof.
  unfold updateFreqList.
  repeat first
    [ apply keeps_rdNode | apply keeps_listMap_at | apply keeps_delNode
    | apply keeps_gets | apply keeps_rdList | apply keeps_ret
    | apply keeps_new_List | apply keeps_wrNode | apply keeps_addNode
    | apply keeps_modify; intros ?; first [apply fr_minf | apply fr_listMap]
    | apply keeps_bind; [| intros ?]
    | match goal with
      | |- keeps R (if ?b then _ else _) => destruct b
      | |- keeps R (match ?x with _ => _ end) => destruct x
      end ].
Qed.

End frame.

#[local] Instance grows_frame : FrameRel grows.
Proof.
  split; try (intros; intros f' Hf'; exact Hf').
  - intros s1 s2 s3 H1 H2 f Hf. by apply H2, H1.
  - intros f p s f' Hf'. simpl. rewrite lookup_insert. by case_decide.
Qed.

#[local] Instance same_index_frame : FrameRel same_index.
Proof.
  split; try (intros; by split).
  intros s1 s2 s3 [H1 H2] [H3 H4]. split; congruence.
Qed.

(** [get] changes neither [nodeMap] nor [curSize], on any state. *)
Lemma same_index_get k : keeps same_index (get k).
Proof.
  intros s r s'. unfold get, bind, gets.
  destruct (nodeMap s !! k) as [a|] eqn:Hk.
  - rewrite (nodeMap_at_eq s k a Hk).
    destruct (rdNode a s) as [[N s1]|] eqn:E1; [| done].
    destruct (updateFreqList a s1) as [[[] s2]|] eqn:E2; [| done].
    intros [= <- <-]. eapply fr_trans.
    + by eapply (keeps_rdNode same_index).
    + by eapply (keeps_updateFreqList same_index).
  - intros [= <- <-]. apply fr_refl.
Qed.

(** No call unregisters a list, on any state. *)
Lemma grows_exec o : keeps grows (exec o).
Proof.
  assert (∀ f s, grows s (set_nodeMap f s)) as Hnm by (intros f s f' Hf'; exact Hf').
  assert (∀ z s, grows s (set_curSize z s)) as Hcs by (intros z s f' Hf'; exact Hf').
  assert (∀ k, keeps grows (nodeMap_at k)) as Hat.
  { intros k s a s'. unfold nodeMap_at. destruct (nodeMap s !! k).
    - intros [= <- <-]. apply fr_refl.
    - intros [= <- <-]. apply Hnm. }
  destruct o as [k|k v]; simpl; unfold get, put;
    repeat first
      [ match goal with |- FrameRel _ => exact _ end
      | apply keeps_rdNode | apply keeps_listMap_at | apply keeps_delNode
      | apply keeps_gets | apply keeps_rdList | apply keeps_ret
      | apply keeps_new_List | apply keeps_wrNode | apply keeps_addNode
      | apply keeps_new_Node | apply keeps_updateFreqList | apply Hat
      | apply keeps_modify; intros ?;
        first [apply fr_minf | apply fr_listMap | apply Hnm | apply Hcs]
      | apply keeps_bind; [exact _ | | intros ?]
      | match goal with
        | |- keeps grows (if ?b then _ else _) => destruct b
        | |- keeps grows (match ?x with _ => _ end) => destruct x
        end ].
Qed.

(** ** Values and frequencies along a run *)

Lemma freq_dat s k a v c :
  nodeMap s !! k = Some a → dat (nodes s) a = Some (k, v, c) → freq s k = Some c.
Proof.
  intros Hk (N & HN & _ & _ & <-)%dat_lookup. unfold freq. by rewrite Hk, HN.
Qed.

Lemma freq_absent s k : nodeMap s !! k = None → freq s k = None.
Proof. intros Hk. unfold freq. by rewrite Hk. Qed.

Lemma reach_freq_Some cap h s k c :
  reach cap h s → freq s k = Some c →
  ∃ a v, nodeMap s !! k = Some a ∧ dat (nodes s) a = Some (k, v, c).
Proof.
  intros Hr. unfold freq. destruct (nodeMap s !! k) as [a|] eqn:Hk; [| done].
  destruct (reach_Inv cap h s Hr) as (bk & HI & _).
  destruct (I_nm _ _ _ HI k a Hk) as (v & c' & Hd & _).
  destruct (dat_lookup _ _ _ _ _ Hd) as (N & HN & _ & _ & <-).
  rewrite HN. simpl. intros [= <-]. eauto.
Qed.

Lemma reach_freq_None cap h s k :
  reach cap h s → freq s k = None → nodeMap s !! k = None.
Proof.
  intros Hr. unfold freq. destruct (nodeMap s !! k) as [a|] eqn:Hk; [| done].
  destruct (reach_entry cap h s k a Hr Hk) as (N & -> & _). done.
Qed.

(** A node, once allocated, keeps its key, and its count never goes down:
    whatever a call does. *)
Lemma effect_mono s o r s' a k v c :
  effect s o r s' → dat (nodes s) a = Some (k, v, c) →
  ∃ v' c', dat (nodes s') a = Some (k, v', c') ∧ c ≤ c'.
Proof.
  intros He Hd.
  assert (is_Some (nodes s !! a)) as Hal.
  { destruct (dat_lookup _ _ _ _ _ Hd) as (N & -> & _). eauto. }
  destruct He as [-> _ _ _ | a0 v0 c0 Hk Hd0 _ _ Hd' Hfr _
                 | k0 v0 _ _ _ _ _ _ _ Hfr _
                 | k0 v0 kv av vv _ _ _ _ _ _ _ _ _ Hfr _].
  - exists v, c. split; [done | lia].
  - destruct (decide (a = a0)) as [->|Hne].
    + assert (okey o = k ∧ c0 = c) as [<- ->] by (split; congruence).
      eexists _, _. split; [exact Hd' | lia].
    + exists v, c. rewrite Hfr by done. split; [done | lia].
  - exists v, c. rewrite Hfr by done. split; [done | lia].
  - exists v, c. rewrite Hfr by done. split; [done | lia].
Qed.

(** A key that is not the argument of a [put] keeps its value, unless it
    is evicted; an absent one stays absent. *)
Lemma effect_value s o r s' k v :
  effect s o r s' → (∀ v', o ≠ Put k v') →
  (stored s k v → nodeMap s' !! k = None ∨ stored s' k v) ∧
  (nodeMap s !! k = None → nodeMap s' !! k = None).
Proof.
  intros He Hno.
  destruct He as [-> _ _ _ | a0 v0 c0 Hk0 Hd0 Enm _ Hd' Hfr _
                 | k0 v0 -> _ Hk0 _ Enm _ _ Hfr _
                 | k0 v0 kv av vv -> _ Hk0 _ _ _ Enm _ _ Hfr _].
  - split; auto.
  - split; [| by rewrite Enm].
    intros (a & c & Hk & Hd). right.
    destruct (decide (a = a0)) as [->|Hne].
    + assert (okey o = k ∧ v0 = v) as [Ek ->] by (split; congruence).
      exists a0, (c0 + 1). rewrite Enm. split; [done |]. rewrite Hd', Ek.
      destruct o as [k1|k1 v1]; simpl in *; [done |]. subst. by destruct (Hno v1).
    + exists a, c. rewrite Enm. split; [done |]. rewrite Hfr; [done.. |].
      destruct (dat_lookup _ _ _ _ _ Hd) as (N & -> & _). eauto.
  - assert (k0 ≠ k) as Hne by (intros ->; by destruct (Hno v0)).
    split.
    + intros (a & c & Hk & Hd). right. exists a, c.
      rewrite Enm, lookup_insert_ne by done. split; [done |].
      rewrite Hfr; [done |]. destruct (dat_lookup _ _ _ _ _ Hd) as (N & -> & _). eauto.
    + intros Hk. by rewrite Enm, lookup_insert_ne.
  - assert (k0 ≠ k) as Hne by (intros ->; by destruct (Hno v0)).
    split.
    + intros (a & c & Hk & Hd). rewrite Enm, lookup_insert_ne by done.
      destruct (decide (kv = k)) as [->|Hne']; [left; by rewrite lookup_delete_eq |].
      right. exists a, c. rewrite Enm, lookup_insert_ne, lookup_delete_ne by done.
      split; [done |]. rewrite Hfr; [done |].
      destruct (dat_lookup _ _ _ _ _ Hd) as (N & -> & _). eauto.
    + intros Hk. rewrite Enm, lookup_insert_ne by done.
      rewrite lookup_delete. by case_decide.
Qed.

Lemma run_mono cap ops : ∀ h s rs s' a k v c,
  reach cap h s → run ops s = Some (rs, s') →
  dat (nodes s) a = Some (k, v, c) →
  ∃ v' c', dat (nodes s') a = Some (k, v', c') ∧ c ≤ c'.
Proof.
  induction ops as [|o ops IH]; intros h s rs s' a k v c Hr Hrun Hd.
  - injection Hrun as <- <-. exists v, c. split; [done | lia].
  - apply run_cons in Hrun as (r & s1 & rs' & Hex & Hrun & ->).
    destruct (reach_exec cap h s o Hr) as (r' & s1' & Hex' & Hr1 & He).
    rewrite Hex in Hex'. injection Hex' as <- <-.
    destruct (effect_mono _ _ _ _ a k v c He Hd) as (v1 & c1 & Hd1 & Hle).
    destruct (IH _ _ _ _ a k v1 c1 Hr1 Hrun Hd1) as (v' & c' & Hd' & Hle').
    exists v', c'. split; [done | lia].
Qed.

Lemma run_value cap k v ops : ∀ h s rs s',
  reach cap h s → Forall (λ o, ∀ v', o ≠ Put k v') ops →
  run ops s = Some (rs, s') →
  (stored s k v → nodeMap s' !! k = None ∨ stored s' k v) ∧
  (nodeMap s !! k = None → nodeMap s' !! k = None).
Proof.
  induction ops as [|o ops IH]; intros h s rs s' Hr Hno Hrun.
  - injection Hrun as <- <-. auto.
  - apply run_cons in Hrun as (r & s1 & rs' & Hex & Hrun & ->).
    destruct (reach_exec cap h s o Hr) as (r' & s1' & Hex' & Hr1 & He).
    rewrite Hex in Hex'. injection Hex' as <- <-.
    apply Forall_cons in Hno as [Hno1 Hno].
    destruct (effect_value _ _ _ _ k v He Hno1) as [Hv Ha].
    destruct (IH _ _ _ _ Hr1 Hno Hrun) as [Hv' Ha'].
    split; [| auto]. intros Hst. destruct (Hv Hst) as [?|?]; auto.
Qed.

Lemma get_stored cap h s k v :
  reach cap h s → stored s k v → ∃ s', get k s = Some (v, s').
Proof.
  intros Hr (a & c & Hk & Hd).
  destruct (reach_Inv cap h s Hr) as (bk & HI & _).
  destruct (get_hit h s bk k a HI Hk)
    as (s' & v' & c' & l1 & l2 & Hd' & _ & Hget & _).
  exists s'. congruence.
Qed.

(** ** Recency *)

(** What [age] measures.  A call on key [k] that leaves [k] in the cache
    has put the node of [k] at the front of a bucket: it has inserted or
    promoted it.  A call on another key leaves the node of [k] where it
    is, or evicts it.  So for a key of the cache, [age h k] counts the
    calls made since its node was last inserted into or promoted to its
    bucket. *)
Lemma last_call_front cap h s o r s' a :
  reach cap h s → exec o s = Some (r, s') →
  nodeMap s' !! okey o = Some a →
  ∃ c rest, freq s' (okey o) = Some c ∧ bucket s' c = a :: rest.
Proof.
  intros Hr Hex Ha. destruct (reach_Inv cap h s Hr) as (bk & HI & _).
  destruct o as [k|k v]; simpl in Ha.
  - apply exec_get in Hex as (z & Hget & ->).
    destruct (nodeMap s !! k) as [a0|] eqn:Hk.
    + destruct (get_hit h s bk k a0 HI Hk)
        as (s1 & v & c & l1 & l2 & _ & _ & Hrun & HI' & Enm & _ & _ & Hd' & _).
      rewrite Hget in Hrun. injection Hrun as -> <-.
      assert (a0 = a) as -> by congruence.
      exists (c + 1), (bk (c + 1)). split; [by eapply freq_dat |].
      rewrite (Inv_bucket _ _ _ (c + 1) HI'). by rewrite upd_eq.
    + rewrite (get_miss s k Hk) in Hget. injection Hget as _ <-. congruence.
  - apply exec_put in Hex as [Hput ->].
    destruct (decide (maxSize s = 0)) as [H0|Hcap].
    { rewrite (put_zero s k v H0) in Hput. injection Hput as <-.
      pose proof (Inv_zero h s bk k HI H0). congruence. }
    destruct (nodeMap s !! k) as [a0|] eqn:Hk.
    + destruct (put_hit h s bk k v a0 HI Hcap Hk)
        as (s1 & v0 & c & l1 & l2 & _ & _ & Hrun & HI' & Enm & _ & _ & Hd' & _).
      rewrite Hput in Hrun. injection Hrun as <-.
      assert (a0 = a) as -> by congruence.
      exists (c + 1), (bk (c + 1)). split; [by eapply freq_dat |].
      rewrite (Inv_bucket _ _ _ (c + 1) HI'). by rewrite upd_eq.
    + destruct (decide (curSize s = maxSize s)) as [Hfull|Hroom].
      * destruct (put_evict h s bk k v HI Hcap Hk Hfull)
          as (sE & s1 & l1 & av & kv & vv & _ & _ & _ & _ & _ & _ & _ & Hrun
              & HI' & Enm & _ & _ & _ & Hdn & _).
        rewrite Hput in Hrun. injection Hrun as <-.
        rewrite Enm, lookup_insert_eq in Ha. injection Ha as <-.
        exists 1, (upd bk (minf s) l1 1). split.
        -- eapply freq_dat; [| exact Hdn]. by rewrite Enm, lookup_insert_eq.
        -- rewrite (Inv_bucket _ _ _ 1 HI'). by rewrite upd_eq.
      * destruct (put_fresh h s bk k v HI Hcap Hk Hroom)
          as (s1 & Hrun & HI' & Enm & _ & _ & _ & Hdn & _).
        rewrite Hput in Hrun. injection Hrun as <-.
        rewrite Enm, lookup_insert_eq in Ha. injection Ha as <-.
        exists 1, (bk 1). split.
        -- eapply freq_dat; [| exact Hdn]. by rewrite Enm, lookup_insert_eq.
        -- rewrite (Inv_bucket _ _ _ 1 HI'). by rewrite upd_eq.
Qed.

(** Within each bucket the nodes stand in the order of their last call,
    the most recent at the front. *)
Lemma bucket_sorted_by_age cap h s f :
  reach cap h s → StronglySorted (newer h (nodes s)) (bucket s f).
Proof.
  intros Hr. destruct (reach_Inv_bucket cap h s Hr) as (HI & _).
  apply (I_age _ _ _ HI).
Qed.

(** What a [put] leaves behind on a cache whose capacity is not 0. *)
Lemma put_stores cap h s k v :
  cap ≠ 0 → reach cap h s →
  ∃ s1, put k v s = Some (tt, s1) ∧ reach cap (Put k v :: h) s1 ∧
        stored s1 k v ∧ effect s (Put k v) None s1.
Proof.
  intros Hcap Hr. destruct (reach_Inv cap h s Hr) as (bk & HI & Hms).
  destruct (reach_exec cap h s (Put k v) Hr) as (r & s1 & Hex & Hr1 & He).
  apply exec_put in Hex as [Hput ->]. exists s1. split_and!; try done.
  destruct He as [-> _ _ H0 | a v0 c Hk Hd Enm _ Hd' _ _
                 | k0 v0 [= <- <-] _ _ _ Enm _ Hdn _ _
                 | k0 v0 kv av vv [= <- <-] _ _ _ _ _ Enm _ Hdn _ _].
  - specialize (H0 k v eq_refl). congruence.
  - exists a, (c + 1). by rewrite Enm.
  - exists (brk s), 1. by rewrite Enm, lookup_insert_eq.
  - exists (brk s), 1. by rewrite Enm, lookup_insert_eq.
Qed.

Lemma reach_demo : reach 2 (rev demo_ops) demo.
Proof. apply reach_after. Qed.

(** * The properties of the specification *)

(** C1.  A [put] of an absent key into a full cache of capacity > 0 evicts
    exactly one entry, and then inserts: the victim is the node before
    the tail sentinel of the list [listMap[minf]], the last of that
    bucket; its frequency is the least of all entries, and among the
    entries of that frequency it is the one on whose key the last call
    lies furthest back ([age]; by [last_call_front] the last call on the
    key of an entry is the one that inserted it into its bucket or
    promoted it to it).  The eviction takes its key out of [nodeMap] and
    its node out of the bucket and decrements [curSize]; the insertion
    follows. *)
Theorem C1_eviction_victim cap h s k v :
  0 < cap → reach cap h s → nodeMap s !! k = None → curSize s = maxSize s →
  ∃ sE s' la L T l1 av kv vv,
    listMap s !! minf s = Some la ∧ lists s !! la = Some L ∧
    nodes s !! tail L = Some T ∧ prev T = av ∧
    bucket s (minf s) = l1 ++ [av] ∧
    dat (nodes s) av = Some (kv, vv, minf s) ∧ nodeMap s !! kv = Some av ∧
    (∀ k' a' v' c',
        nodeMap s !! k' = Some a' → dat (nodes s) a' = Some (k', v', c') →
        minf s ≤ c' ∧ (c' = minf s → (age h k' ≤ age h kv)%nat)) ∧
    evict_block s = Some (tt, sE) ∧
    nodeMap sE = delete kv (nodeMap s) ∧ curSize sE = curSize s - 1 ∧
    insert_block k v sE = Some (tt, s') ∧
    put k v s = Some (tt, s') ∧
    nodeMap s' = <[k := brk s]> (delete kv (nodeMap s)) ∧
    curSize s' = curSize s ∧
    (∀ f, bucket s' f
          = (if decide (f = 1) then [brk s] else [])
            ++ (if decide (f = minf s) then l1 else bucket s f)) ∧
    (∀ f, av ∉ bucket s' f).
Proof.
  intros Hcap Hr Hk Hfull.
  destruct (reach_Inv_bucket cap h s Hr) as (HI & Hms).
  assert (0 < curSize s) as Hpos by lia.
  assert (maxSize s ≠ 0) as Hnz by lia.
  destruct (min_bucket_tail h s _ HI Hpos)
    as (la & L & T & l1 & av & kv & vv & Hla & HL & Hsz & Hbk & HT & HpT & Hh & Ht & Hd & Hn).
  destruct (put_evict h s _ k v HI Hnz Hk Hfull)
    as (sE & s' & l1' & av' & kv' & vv' & Hbk' & Hdv' & Hnv' & HrunE & EnmE & EcsE
        & HrunI & Hrun & HI' & Enm & Ecs & Ems & Emf & Hdn & Hfr).
  assert (l1' = l1 ∧ av' = av) as [-> ->].
  { rewrite Hbk in Hbk'. by apply app_inj_tail in Hbk' as [-> ->]. }
  assert (kv' = kv) as -> by congruence.
  assert (∀ f, bucket s' f
               = (if decide (f = 1) then [brk s] else [])
                 ++ (if decide (f = minf s) then l1 else bucket s f)) as Hbs.
  { intros f. rewrite (Inv_bucket _ _ _ f HI'). unfold upd.
    destruct (decide (f = 1)) as [->|]; simpl; [| done].
    by destruct (decide (1 = minf s)). }
  assert (av ∉ l1) as Hnl.
  { pose proof (Inv_nodup _ _ _ (minf s) HI) as Hnd. rewrite Hbk in Hnd.
    apply NoDup_app in Hnd as (_ & Hnd & _). intros Hin. apply (Hnd av Hin). set_solver. }
  exists sE, s', la, L, T, l1, av, kv, vv. split_and!; try done.
  - intros k' a' v' c' Hk' Hd'.
    destruct (I_nm _ _ _ HI k' a' Hk') as (v'' & c'' & Hd'' & Hin).
    assert (c'' = c') as -> by congruence.
    destruct (I_min _ _ _ HI Hpos) as [_ Hmin].
    split; [apply Hmin; intros E; rewrite E in Hin; by apply elem_of_nil in Hin |].
    intros ->. rewrite Hbk in Hin. apply elem_of_app in Hin as [Hin|Hin].
    + pose proof (I_age _ _ _ HI (minf s)) as Hs. rewrite Hbk in Hs.
      pose proof (StronglySorted_app_1_elem_of _ _ _ a' av Hs Hin) as Hlt.
      unfold newer in Hlt.
      rewrite (dat_kof_eq _ _ _ _ _ Hd'), (dat_kof_eq _ _ _ _ _ Hd) in Hlt.
      assert (av ∈ [av]) as Hav by set_solver. specialize (Hlt Hav). lia.
    + apply list_elem_of_singleton in Hin as ->.
      assert (k' = kv) as -> by congruence. lia.
  - intros f. rewrite Hbs. intros [Hin|Hin]%elem_of_app.
    + destruct (decide (f = 1)); [| by apply elem_of_nil in Hin].
      apply list_elem_of_singleton in Hin.
      destruct (I_heap _ _ _ HI) as (P1 & _).
      destruct (dat_lookup _ _ _ _ _ Hd) as (N & HN & _).
      assert (0 < av < brk s)%nat by eauto. lia.
    + destruct (decide (f = minf s)) as [->|Hne]; [done |].
      destruct (I_data _ _ _ HI f av Hin) as (? & ? & Hd2 & _). congruence.
Qed.

(** C1 on the full cache [demo], for [put(3,30)]. *)
Lemma C1_witness :
  (0 < 2 ∧ reach 2 (rev demo_ops) demo ∧
   nodeMap demo !! 3 = None ∧ curSize demo = maxSize demo) ∧
  ∃ s', put 3 30 demo = Some (tt, s') ∧ curSize s' = curSize demo.
Proof.
  assert (0 < 2) as H1 by lia.
  assert (nodeMap demo !! 3 = None) as H2 by (vm_compute; reflexivity).
  assert (curSize demo = maxSize demo) as H3 by (vm_compute; reflexivity).
  split; [by split_and! ; try apply reach_demo |].
  destruct (C1_eviction_victim 2 (rev demo_ops) demo 3 30 H1 reach_demo H2 H3)
    as (sE & s' & la & L & T & l1 & av & kv & vv & Hc).
  exists s'. split; apply Hc.
Defined.

(** C2.  On a cache constructed with capacity >= 0 every sequence of
    calls runs, and in the state it ends in (so: after each call)
    [curSize] is the number of keys in [nodeMap] and
    [0 <= curSize <= capacity]; a [put] made there keeps the bound and
    takes at most one key out of [nodeMap]. *)
Theorem C2_capacity_bound cap ops :
  0 ≤ cap →
  ∃ rs s,
    run ops (LFUCache cap) = Some (rs, s) ∧
    curSize s = Z.of_nat (base.size (nodeMap s)) ∧ 0 ≤ curSize s ≤ cap ∧
    ∀ k v, ∃ s',
      put k v s = Some (tt, s') ∧ 0 ≤ curSize s' ≤ cap ∧
      ∀ k1 k2,
        is_Some (nodeMap s !! k1) → nodeMap s' !! k1 = None →
        is_Some (nodeMap s !! k2) → nodeMap s' !! k2 = None → k1 = k2.
Proof.
  intros Hcap.
  destruct (reach_run cap ops [] (LFUCache cap) (reach_init cap))
    as (rs & s & Hrun & Hr).
  exists rs, s.
  split_and!; [done | | apply (reach_size _ _ _ Hr) | by apply (reach_size _ _ _ Hr) |].
  { destruct (reach_Inv cap _ s Hr) as (bk & HI & _). apply (I_size _ _ _ HI). }
  intros k v.
  destruct (reach_exec cap _ s (Put k v) Hr) as (r & s' & Hex & Hr' & He).
  apply exec_put in Hex as [Hput ->].
  exists s'. split_and!; [done | apply (reach_size _ _ _ Hr') | by apply (reach_size _ _ _ Hr') |].
  intros k1 k2 [a1 H1] H1' [a2 H2] H2'.
  destruct He as [-> _ _ _ | a v0 c _ _ Enm _ _ _ _
                 | k0 v0 [= <- <-] _ _ _ Enm _ _ _ _
                 | k0 v0 kv av vv [= <- <-] _ _ _ _ _ Enm _ _ _ _].
  - congruence.
  - rewrite Enm in H1'. congruence.
  - rewrite Enm, lookup_insert in H1'. destruct (decide (k = k1)); congruence.
  - rewrite Enm, lookup_insert in H1', H2'.
    destruct (decide (k = k1)); [done |]. destruct (decide (k = k2)); [done |].
    rewrite lookup_delete in H1', H2'.
    destruct (decide (kv = k1)), (decide (kv = k2)); congruence.
Qed.

(** C2 for capacity 2 and three insertions. *)
Lemma C2_witness :
  0 ≤ 2 ∧
  ∃ rs s, run [Put 1 10; Put 2 20; Put 3 30] (LFUCache 2) = Some (rs, s) ∧
          0 ≤ curSize s ≤ 2.
Proof.
  assert (0 ≤ 2) as H1 by lia. split; [exact H1 |].
  destruct (C2_capacity_bound 2 [Put 1 10; Put 2 20; Put 3 30] H1)
    as (rs & s & Hrun & _ & Hsz & _).
  by exists rs, s.
Defined.

(** C3 as stated fails: after [put(1,10); get(1)] on a cache of capacity
    2, [listMap] still holds the list of frequency 1, now empty
    ([size == 0]), and [minf] is 2 while the smallest key of [listMap]
    is 1. *)
Lemma C3_counterexample :
  ∃ rs s la L,
    run [Put 1 10; Get 1] (LFUCache 2) = Some (rs, s) ∧
    listMap s !! 1 = Some la ∧ lists s !! la = Some L ∧ size L = 0 ∧
    bucket s 1 = [] ∧ curSize s = 1 ∧ minf s = 2.
Proof.
  eexists _, _, 4%nat, (mkList 2 3 0).
  split; [vm_compute; reflexivity |]. by vm_compute.
Qed.

(** C3, amended.  After every call on a cache constructed with capacity
    >= 0:
    - each list registered in [listMap] under a frequency [f] is a
      well-formed list object: following [next] from its head sentinel
      one meets the nodes [bucket s f], each once, and then its tail
      sentinel, the [prev] links mirror that path, and [size] is the
      number of these nodes, possibly 0; every one of them is the node of
      a key of [nodeMap] and has [count = f];
    - conversely the node of every key of [nodeMap] stands in the list
      registered under its [count];
    - whenever the cache is non-empty, the bucket at [minf] is non-empty
      and no non-empty bucket has a smaller frequency: some entry has
      [count = minf] and no entry has a smaller [count];
    - no call unregisters a list. *)
Theorem C3_min_frequency cap ops :
  0 ≤ cap →
  ∃ rs s,
    run ops (LFUCache cap) = Some (rs, s) ∧
    (∀ f la, listMap s !! f = Some la →
       ∃ L, lists s !! la = Some L ∧ size L = Z.of_nat (length (bucket s f)) ∧
            chain (nodes s) (head L) (bucket s f) (tail L) ∧
            NoDup (cells L (bucket s f)) ∧
            ∀ a, a ∈ bucket s f →
              ∃ k v, dat (nodes s) a = Some (k, v, f) ∧ nodeMap s !! k = Some a) ∧
    (∀ k a, nodeMap s !! k = Some a →
       ∃ v c la, dat (nodes s) a = Some (k, v, c) ∧
                 listMap s !! c = Some la ∧ a ∈ bucket s c) ∧
    (0 < curSize s →
       bucket s (minf s) ≠ [] ∧ (∀ f, bucket s f ≠ [] → minf s ≤ f) ∧
       (∃ k a v, nodeMap s !! k = Some a ∧
                 dat (nodes s) a = Some (k, v, minf s)) ∧
       (∀ k a v c, nodeMap s !! k = Some a →
                   dat (nodes s) a = Some (k, v, c) → minf s ≤ c)) ∧
    (∀ o r s', exec o s = Some (r, s') →
       ∀ f, is_Some (listMap s !! f) → is_Some (listMap s' !! f)).
Proof.
  intros _.
  destruct (reach_run cap ops [] (LFUCache cap) (reach_init cap))
    as (rs & s & Hrun & Hr).
  destruct (reach_Inv_bucket cap _ s Hr) as (HI & _).
  exists rs, s. split_and!; [done | | | |].
  - intros f la Hf. destruct (B_at _ _ _ _ (I_bk _ _ _ HI) f la Hf) as [L [HL Hsz Hc Hnd]].
    exists L. split_and!; [done.. |]. apply (I_data _ _ _ HI).
  - intros k a Hk. destruct (I_nm _ _ _ HI k a Hk) as (v & c & Hd & Hin).
    destruct (listMap s !! c) as [la|] eqn:Hla.
    + by exists v, c, la.
    + rewrite (B_none _ _ _ _ (I_bk _ _ _ HI) c Hla) in Hin. by apply elem_of_nil in Hin.
  - intros Hpos. destruct (I_min _ _ _ HI Hpos) as [Hne Hmin]. split_and!; [done.. | |].
    + destruct (bucket s (minf s)) as [|a l] eqn:Hb; [done |].
      destruct (I_data _ _ _ HI (minf s) a) as (k & v & Hd & Hk); [rewrite Hb; set_solver |].
      by exists k, a, v.
    + intros k a v c Hk Hd. destruct (I_nm _ _ _ HI k a Hk) as (v' & c' & Hd' & Hin).
      assert (c' = c) as -> by congruence. apply Hmin. intros E. rewrite E in Hin.
      by apply elem_of_nil in Hin.
  - intros o r s' Hex. by apply (grows_exec o s r s').
Qed.

(** C3 for capacity 2 and [put(1,10); get(1)]. *)
Lemma C3_witness :
  0 ≤ 2 ∧
  ∃ rs s, run [Put 1 10; Get 1] (LFUCache 2) = Some (rs, s) ∧
          (0 < curSize s → bucket s (minf s) ≠ []).
Proof.
  assert (0 ≤ 2) as H1 by lia. split; [exact H1 |].
  destruct (C3_min_frequency 2 [Put 1 10; Get 1] H1)
    as (rs & s & Hrun & _ & _ & Hmin & _).
  exists rs, s. split; [exact Hrun |]. intros Hp. by apply Hmin.
Defined.

(** C4.  On every state, reachable or not: when [get] returns it has
    changed neither [curSize] nor [nodeMap] (so it has removed no entry
    from the key index); and on a key absent from [nodeMap] it returns -1
    and leaves the whole state as it is.  In every reachable state [get]
    does return. *)
Theorem C4_get_frame :
  (∀ s k r s',
      get k s = Some (r, s') →
      curSize s' = curSize s ∧ nodeMap s' = nodeMap s) ∧
  (∀ s k, nodeMap s !! k = None → get k s = Some (-1, s)) ∧
  (∀ cap h s k, reach cap h s → ∃ r s', get k s = Some (r, s')).
Proof.
  split_and!.
  - intros s k r s' Hget. destruct (same_index_get k s r s' Hget). by split.
  - apply get_miss.
  - intros cap h s k Hr.
    destruct (reach_exec cap h s (Get k) Hr) as (r & s' & Hex & _).
    apply exec_get in Hex as (z & Hget & _). by exists z, s'.
Qed.

(** C4 on the state [demo]: [get(7)] misses, [get(1)] hits. *)
Lemma C4_witness :
  reach 2 (rev demo_ops) demo ∧ nodeMap demo !! 7 = None ∧
  get 7 demo = Some (-1, demo) ∧
  ∃ r s', get 1 demo = Some (r, s') ∧
          curSize s' = curSize demo ∧ nodeMap s' = nodeMap demo.
Proof.
  assert (nodeMap demo !! 7 = None) as H1 by (vm_compute; reflexivity).
  destruct C4_get_frame as (Hframe & Hmiss & Htotal).
  split_and!; [apply reach_demo | exact H1 | exact (Hmiss demo 7 H1) |].
  destruct (Htotal 2 (rev demo_ops) demo 1 reach_demo) as (r & s' & Hget).
  exists r, s'. split; [exact Hget |]. exact (Hframe demo 1 r s' Hget).
Defined.

(** C5 as stated fails for capacity 0: [put(1,5)] stores nothing and the
    [get(1)] that follows returns -1, not 5. *)
Lemma C5_counterexample :
  results 0 [Put 1 5; Get 1] = Some [None; Some (-1)].
Proof. vm_compute. reflexivity. Qed.

(** C5, amended.  On a cache of capacity > 0: after [put(k,v)] the entry
    of [k] carries [v]; [get(k)] returns [v] immediately, and still does
    after any further calls other than a [put] on [k], provided [k] is
    still in [nodeMap] (has not been evicted); and when [k] was present
    already, the [put] leaves [nodeMap] and [curSize] as they were: the
    value is updated in the node [k] is bound to. *)
Theorem C5_round_trip cap h s k v :
  0 < cap → reach cap h s →
  ∃ s1,
    put k v s = Some (tt, s1) ∧ stored s1 k v ∧
    (∃ s2, get k s1 = Some (v, s2)) ∧
    (∀ ops rs s2,
        Forall (λ o, ∀ v', o ≠ Put k v') ops →
        run ops s1 = Some (rs, s2) → is_Some (nodeMap s2 !! k) →
        ∃ s3, get k s2 = Some (v, s3)) ∧
    (is_Some (nodeMap s !! k) → nodeMap s1 = nodeMap s ∧ curSize s1 = curSize s).
Proof.
  intros Hcap Hr.
  destruct (put_stores cap h s k v) as (s1 & Hput & Hr1 & Hst & He); [lia | done |].
  exists s1. split_and!; [done | done | by eapply get_stored | |].
  - intros ops rs s2 Hno Hrun [a Ha].
    destruct (run_value cap k v ops _ s1 rs s2 Hr1 Hno Hrun) as [Hv _].
    destruct (Hv Hst) as [E|Hst2]; [congruence |].
    eapply get_stored; [| exact Hst2]. by eapply run_reach.
  - intros [a Ha].
    destruct He as [-> _ _ _ | a0 v0 c _ _ Enm Ecs _ _ _
                   | k0 v0 [= <- <-] _ Hk _ _ _ _ _ _
                   | k0 v0 kv av vv [= <- <-] _ Hk _ _ _ _ _ _ _ _];
      [done | done | congruence..].
Qed.

(** C5 on a new cache of capacity 2, for [put(1,10)]. *)
Lemma C5_witness :
  (0 < 2 ∧ reach 2 [] (LFUCache 2)) ∧
  ∃ s1 s2, put 1 10 (LFUCache 2) = Some (tt, s1) ∧ get 1 s1 = Some (10, s2).
Proof.
  assert (0 < 2) as H1 by lia. split; [split; [exact H1 | apply reach_init] |].
  destruct (C5_round_trip 2 [] (LFUCache 2) 1 10 H1 (reach_init 2))
    as (s1 & Hput & _ & (s2 & Hget) & _).
  by exists s1, s2.
Defined.

(** C6.  With [maxSize == 0], [put] returns at once, whatever the rest of
    the state; so a cache constructed with capacity 0 never leaves its
    initial state: every [put] is a no-op, every [get] returns -1, and
    [nodeMap] stays empty. *)
Theorem C6_zero_capacity :
  (∀ s k v, maxSize s = 0 → put k v s = Some (tt, s)) ∧
  (∀ ops,
      run ops (LFUCache 0)
      = Some ((λ o, ores o (-1)) <$> ops, LFUCache 0)) ∧
  (∀ k, get k (LFUCache 0) = Some (-1, LFUCache 0)) ∧
  nodeMap (LFUCache 0) = ∅ ∧ curSize (LFUCache 0) = 0.
Proof.
  split_and!; [apply put_zero | | intros k; by apply get_miss | done..].
  induction ops as [|o ops IH]; [done |].
  cbn [run fmap list_fmap].
  assert (exec o (LFUCache 0) = Some (ores o (-1), LFUCache 0)) as ->.
  { destruct o as [k|k v]; simpl.
    - by mstep (get_miss (LFUCache 0) k (lookup_empty k)).
    - by mstep (put_zero (LFUCache 0) k v eq_refl). }
  by rewrite IH.
Qed.

(** C7 as stated fails: the constructor takes -1 like any other [int],
    and the object it yields stores and returns values. *)
Lemma C7_counterexample :
  maxSize (LFUCache (-1)) = -1 ∧
  results (-1) [Put 1 10; Get 1] = Some [None; Some 10].
Proof. split; [reflexivity | vm_compute; reflexivity]. Qed.

(** C7, amended.  The constructor accepts a negative capacity [c]: it
    stores it in [maxSize] and yields an empty cache.  On that cache every
    sequence of calls runs, and a [put] made after it stores its value
    without taking any key out of [nodeMap]. *)
Theorem C7_negative_capacity_accepted c ops :
  c < 0 →
  LFUCache c = mkState ∅ ∅ 1 0 0 c ∅ ∅ ∧
  ∃ rs s,
    run ops (LFUCache c) = Some (rs, s) ∧ maxSize s = c ∧
    ∀ k v, ∃ s1 s2,
      put k v s = Some (tt, s1) ∧ get k s1 = Some (v, s2) ∧
      ∀ k', is_Some (nodeMap s !! k') → is_Some (nodeMap s1 !! k').
Proof.
  intros Hc. split; [reflexivity |].
  destruct (reach_run c ops [] (LFUCache c) (reach_init c)) as (rs & s & Hrun & Hr).
  destruct (reach_Inv c _ s Hr) as (bk & HI & Hms).
  exists rs, s. split_and!; [done.. |]. intros k v.
  assert (c ≠ 0) as Hnz by lia.
  destruct (put_stores c _ s k v Hnz Hr) as (s1 & Hput & Hr1 & Hst & He).
  destruct (get_stored c _ s1 k v Hr1 Hst) as (s2 & Hget).
  exists s1, s2. split_and!; [done.. |]. intros k' [a' Hk'].
  destruct He as [-> _ _ _ | a0 v0 c0 _ _ Enm _ _ _ _
                 | k0 v0 [= <- <-] _ Hk _ Enm _ _ _ _
                 | k0 v0 kv av vv [= <- <-] _ _ Hfull _ _ _ _ _ _ _].
  - eauto.
  - rewrite Enm. eauto.
  - rewrite Enm, lookup_insert. case_decide; eauto.
  - pose proof (I_size _ _ _ HI). lia.
Qed.

(** C7 for capacity -1 and two insertions. *)
Lemma C7_witness :
  -1 < 0 ∧
  ∃ rs s, run [Put 1 10; Put 2 20] (LFUCache (-1)) = Some (rs, s) ∧ maxSize s = -1.
Proof.
  assert (-1 < 0) as H1 by lia. split; [exact H1 |].
  destruct (C7_negative_capacity_accepted (-1) [Put 1 10; Put 2 20] H1)
    as (_ & rs & s & Hrun & Hms & _).
  by exists rs, s.
Defined.

(** C8.  In a reachable state every call returns, and: a key that had no
    entry has none afterwards, or one of frequency 1 created by a [put]
    on it; the entry of the key the call is made on has its frequency
    incremented by exactly 1; every other entry keeps its frequency or is
    evicted.  And along any further sequence of calls, an entry that is
    still the entry of its key (the same node) has a frequency at least
    as large as before. *)
Theorem C8_frequency cap h s o :
  reach cap h s →
  ∃ r s',
    exec o s = Some (r, s') ∧
    (∀ k, freq s k = None →
          freq s' k = None ∨ (freq s' k = Some 1 ∧ ∃ v, o = Put k v)) ∧
    (∀ c, freq s (okey o) = Some c → freq s' (okey o) = Some (c + 1)) ∧
    (∀ k c, okey o ≠ k → freq s k = Some c →
            freq s' k = Some c ∨ freq s' k = None) ∧
    (∀ ops rs s'' k a c,
        run ops s = Some (rs, s'') →
        nodeMap s !! k = Some a → freq s k = Some c →
        nodeMap s'' !! k = Some a →
        ∃ c'', freq s'' k = Some c'' ∧ c ≤ c'').
Proof.
  intros Hr.
  destruct (reach_exec cap h s o Hr) as (r & s' & Hex & Hr' & He).
  exists r, s'. split_and!; [done | | | |].
  - intros k Hf. apply (reach_freq_None cap h s k Hr) in Hf.
    destruct He as [-> _ _ _ | a0 v0 c0 _ _ Enm _ _ _ _
                   | k0 v0 -> _ Hk _ Enm _ Hdn _ _
                   | k0 v0 kv av vv -> _ Hk _ _ _ Enm _ Hdn _ _].
    + left. by apply freq_absent.
    + left. apply freq_absent. by rewrite Enm.
    + destruct (decide (k0 = k)) as [->|Hne].
      * right. split; [| by exists v0].
        eapply freq_dat; [| exact Hdn]. by rewrite Enm, lookup_insert_eq.
      * left. apply freq_absent. by rewrite Enm, lookup_insert_ne.
    + destruct (decide (k0 = k)) as [->|Hne].
      * right. split; [| by exists v0].
        eapply freq_dat; [| exact Hdn]. by rewrite Enm, lookup_insert_eq.
      * left. apply freq_absent. rewrite Enm, lookup_insert_ne by done.
        rewrite lookup_delete. by case_decide.
  - intros c Hf. destruct (reach_freq_Some cap h s _ c Hr Hf) as (a & v & Hk & Hd).
    destruct He as [-> Hk0 _ _ | a0 v0 c0 Hk0 Hd0 Enm _ Hd' _ _
                   | k0 v0 -> _ Hk0 _ _ _ _ _ _
                   | k0 v0 kv av vv -> _ Hk0 _ _ _ _ _ _ _ _];
      [congruence | | simpl in Hk; congruence..].
    assert (a0 = a) as -> by congruence. assert (c0 = c) as -> by congruence.
    eapply freq_dat; [| exact Hd']. by rewrite Enm.
  - intros k c Hne Hf.
    destruct (reach_freq_Some cap h s _ c Hr Hf) as (a & v & Hk & Hd).
    assert (is_Some (nodes s !! a)) as Hal.
    { destruct (dat_lookup _ _ _ _ _ Hd) as (N & -> & _). eauto. }
    destruct He as [-> _ _ _ | a0 v0 c0 Hk0 Hd0 Enm _ _ Hfr _
                   | k0 v0 -> _ Hk0 _ Enm _ _ Hfr _
                   | k0 v0 kv av vv -> _ Hk0 _ _ _ Enm _ _ Hfr _].
    + by left.
    + left. eapply (freq_dat _ _ a v); [by rewrite Enm |].
      rewrite Hfr; [done | | done]. intros ->. congruence.
    + left. simpl in Hne. eapply (freq_dat _ _ a v).
      * by rewrite Enm, lookup_insert_ne.
      * by rewrite Hfr.
    + simpl in Hne. destruct (decide (kv = k)) as [->|Hne'].
      * right. apply freq_absent. rewrite Enm, lookup_insert_ne by done.
        by rewrite lookup_delete_eq.
      * left. eapply (freq_dat _ _ a v).
        -- by rewrite Enm, lookup_insert_ne, lookup_delete_ne.
        -- by rewrite Hfr.
  - intros ops rs s'' k a c Hrun Hk Hf Hk''.
    destruct (reach_freq_Some cap h s _ c Hr Hf) as (a' & v & Hk' & Hd).
    assert (a' = a) as -> by congruence.
    destruct (run_mono cap ops h s rs s'' a k v c Hr Hrun Hd) as (v' & c' & Hd' & Hle).
    exists c'. split; [by eapply freq_dat | done].
Qed.

(** C8 on [demo], for [get(1)]: the frequency of key 1 goes from 2 to 3. *)
Lemma C8_witness :
  reach 2 (rev demo_ops) demo ∧ freq demo 1 = Some 2 ∧
  ∃ r s', exec (Get 1) demo = Some (r, s') ∧ freq s' 1 = Some 3.
Proof.
  assert (freq demo 1 = Some 2) as H1 by (vm_compute; reflexivity).
  split_and!; [apply reach_demo | exact H1 |].
  destruct (C8_frequency 2 (rev demo_ops) demo (Get 1) reach_demo)
    as (r & s' & Hex & _ & Hinc & _).
  exists r, s'. split; [exact Hex |]. exact (Hinc 2 H1).
Defined.

(** C9 as stated fails: with the value -1 stored under key 1, [get(1)]
    (a hit) and [get(2)] (a miss) both return -1. *)
Lemma C9_counterexample :
  ∃ rs s s',
    run [Put 1 (-1)] (LFUCache 1) = Some (rs, s) ∧
    stored s 1 (-1) ∧ nodeMap s !! 2 = None ∧
    get 1 s = Some (-1, s') ∧ get 2 s = Some (-1, s).
Proof.
  eexists _, _, _. split; [vm_compute; reflexivity |].
  split; [exists 1%nat, 1; by vm_compute |].
  split; [by vm_compute |]. split; vm_compute; reflexivity.
Qed.

(** C9, amended.  The miss result of [get] is the [int] -1, a value of
    the same type as the stored values: a hit returns the stored value,
    so it differs from the miss result exactly when that value is not
    -1. *)
Theorem C9_miss_sentinel cap h s k :
  reach cap h s →
  (nodeMap s !! k = None → get k s = Some (-1, s)) ∧
  (∀ v, stored s k v →
        ∃ s', get k s = Some (v, s') ∧
              (v ≠ -1 → ∀ k0 s0 r0 s0',
                  nodeMap s0 !! k0 = None → get k0 s0 = Some (r0, s0') → r0 ≠ v)).
Proof.
  intros Hr. split; [apply get_miss |].
  intros v Hst. destruct (get_stored cap h s k v Hr Hst) as (s' & Hget).
  exists s'. split; [done |]. intros Hv k0 s0 r0 s0' Hk0 Hget0.
  rewrite (get_miss s0 k0 Hk0) in Hget0. congruence.
Qed.

(** C9 on [demo], for key 1, which holds 10. *)
Lemma C9_witness :
  reach 2 (rev demo_ops) demo ∧ stored demo 1 10 ∧
  ∃ s', get 1 demo = Some (10, s').
Proof.
  assert (stored demo 1 10) as H1 by (exists 1%nat, 2; by vm_compute).
  split_and!; [apply reach_demo | exact H1 |].
  destruct (C9_miss_sentinel 2 (rev demo_ops) demo 1 reach_demo) as [_ Hhit].
  destruct (Hhit 10 H1) as (s' & Hget & _). by exists s'.
Defined.

(** C10.  In a reachable state of a cache of capacity > 0, when [put] is
    about to evict (key absent, [curSize == maxSize]), [listMap] already
    holds a list at [minf] with [size >= 1]: the lookup [listMap[minf]]
    adds nothing to the map, and the node [tail->prev] that is removed is
    neither sentinel but the node of a stored key. *)
Theorem C10_eviction_bucket_nonempty cap h s k :
  0 < cap → reach cap h s → nodeMap s !! k = None → curSize s = maxSize s →
  ∃ la L T av kv,
    listMap s !! minf s = Some la ∧
    listMap_at (minf s) s = Some (la, s) ∧
    lists s !! la = Some L ∧ 1 ≤ size L ∧
    nodes s !! tail L = Some T ∧ prev T = av ∧
    av ≠ head L ∧ av ≠ tail L ∧
    nodeMap s !! kv = Some av ∧ kof (nodes s) av = kv.
Proof.
  intros Hcap Hr Hk Hfull.
  destruct (reach_Inv cap h s Hr) as (bk & HI & Hms).
  assert (0 < curSize s) as Hpos by lia.
  destruct (min_bucket_tail h s bk HI Hpos)
    as (la & L & T & l1 & av & kv & vv & Hla & HL & Hsz & Hbk & HT & HpT & Hh & Ht & Hd & Hn).
  exists la, L, T, av, kv. split_and!; try done.
  - by apply listMap_at_eq.
  - rewrite Hsz, Hbk, length_app. simpl. lia.
  - by eapply dat_kof_eq.
Qed.

(** C10 on the full cache [demo], for a [put] on the absent key 3. *)
Lemma C10_witness :
  (0 < 2 ∧ reach 2 (rev demo_ops) demo ∧
   nodeMap demo !! 3 = None ∧ curSize demo = maxSize demo) ∧
  ∃ la L, listMap demo !! minf demo = Some la ∧ lists demo !! la = Some L ∧
          1 ≤ size L.
Proof.
  assert (0 < 2) as H1 by lia.
  assert (nodeMap demo !! 3 = None) as H2 by (vm_compute; reflexivity).
  assert (curSize demo = maxSize demo) as H3 by (vm_compute; reflexivity).
  split; [by split_and! ; try apply reach_demo |].
  destruct (C10_eviction_bucket_nonempty 2 (rev demo_ops) demo 3 H1 reach_demo H2 H3)
    as (la & L & T & av & kv & Hc).
  exists la, L. split_and!; apply Hc.
Defined.


